(** * Verval Bapenda Kampar: extraction client and upload orchestrator

    A shallow embedding of the two TypeScript sources of the repository,
    [geminiService.ts] (the retry wrapper [withRetry] and the extraction
    function [processTaxPDF]) and [App.tsx] (the handlers [handleFileUpload],
    [exportToCSV] and [generateSummary]), followed by the properties the
    specification states about them.

    Conventions of the embedding:
    - a JavaScript [number] holding an amount is an IEEE-754 binary64 value,
      here Rocq's primitive [float]; years, loop counters and delays in
      milliseconds are integers and are modelled by [Z];
    - [null] in [number | null] is [None]; an absent property ([undefined])
      is a failed lookup;
    - an [async] function is a computation over a [World] that counts the
      requests sent to the model endpoint and logs every awaited timer;
      a rejected promise is the [Rejected] outcome;
    - [console.warn] and [console.error] are not modelled. *)

From Stdlib Require Import ZArith List String Ascii Bool Lia Sorted Permutation.
From Stdlib Require Import DecimalString.
From Stdlib Require Import Floats.
Import ListNotations.

Local Open Scope string_scope.
Local Open Scope list_scope.
Local Open Scope Z_scope.

#[local] Set Warnings "-inexact-float".

(* ================================================================== *)
(** * Part I: definitions *)
(* ================================================================== *)

(** ** The JavaScript primitives the sources rely on *)

Module Js.

(** [s.includes(sub)]. *)
Fixpoint includes (s sub : string) : bool :=
  if String.prefix sub s then true
  else match s with
       | EmptyString => false
       | String _ s' => includes s' sub
       end.

(** [parts.join(sep)] on an array of strings. *)
Fixpoint join (sep : string) (parts : list string) : string :=
  match parts with
  | [] => EmptyString
  | [p] => p
  | p :: rest => p ++ sep ++ join sep rest
  end.

(** [String(n)] for an integer [n]. *)
Definition String_of_int (n : Z) : string :=
  NilZero.string_of_int (Z.to_int n).

(** The indices visited by [for (let i = lo; i < hi; i++)]. *)
Definition for_range (lo hi : Z) : list Z :=
  map (fun k => lo + Z.of_nat k) (seq 0 (Z.to_nat (hi - lo))).

(** [xs.indexOf(x)]: the first position of [x], or [-1]. *)
Fixpoint indexOf (xs : list string) (x : string) : Z :=
  match xs with
  | [] => -1
  | y :: rest =>
      if String.eqb y x then 0
      else let k := indexOf rest x in
           if k =? -1 then -1 else k + 1
  end.

(** [xs.filter((x, index) => p x index)], the callback seeing the position. *)
Fixpoint filter_from {A} (p : A -> Z -> bool) (index : Z) (xs : list A) : list A :=
  match xs with
  | [] => []
  | x :: rest =>
      if p x index then x :: filter_from p (index + 1) rest
      else filter_from p (index + 1) rest
  end.

Definition filter_indexed {A} (p : A -> Z -> bool) (xs : list A) : list A :=
  filter_from p 0 xs.

(** [Array.from(new Set(xs))]: a [Set] keeps its elements in insertion
    order and ignores the insertion of an element it already holds. *)
Definition Set_has (s : list string) (x : string) : bool :=
  existsb (String.eqb x) s.

Definition Set_add (s : list string) (x : string) : list string :=
  if Set_has s x then s else s ++ [x].

Definition Array_from_Set (xs : list string) : list string :=
  fold_left Set_add xs [].

(** *** Objects with integer keys

    A [Record<number, V>] is an ordinary object: a property list kept in
    creation order.  Assigning to an existing key replaces the value in
    place; assigning to a new key appends a property. *)

Definition Obj (V : Type) : Type := list (Z * V).

Fixpoint obj_get {V} (o : Obj V) (k : Z) : option V :=
  match o with
  | [] => None
  | (k', v) :: rest => if k' =? k then Some v else obj_get rest k
  end.

Fixpoint obj_set {V} (o : Obj V) (k : Z) (v : V) : Obj V :=
  match o with
  | [] => [(k, v)]
  | (k', v') :: rest =>
      if k' =? k then (k', v) :: rest else (k', v') :: obj_set rest k v
  end.

(** Property enumeration order (OrdinaryOwnPropertyKeys): the keys that are
    array indices, [0 .. 2^32 - 2], in ascending numeric order, then every
    other key in creation order. *)
Definition is_array_index (k : Z) : bool :=
  (0 <=? k) && (k <=? 4294967294).

Fixpoint insert_by_key {V} (e : Z * V) (sorted : Obj V) : Obj V :=
  match sorted with
  | [] => [e]
  | e' :: rest =>
      if fst e <? fst e' then e :: e' :: rest
      else e' :: insert_by_key e rest
  end.

Definition sort_by_key {V} (o : Obj V) : Obj V :=
  fold_right insert_by_key [] o.

Definition own_properties {V} (o : Obj V) : Obj V :=
  sort_by_key (filter (fun e => is_array_index (fst e)) o)
  ++ filter (fun e => negb (is_array_index (fst e))) o.

(** [Object.values(o)]. *)
Definition Object_values {V} (o : Obj V) : list V :=
  map snd (own_properties o).

(** *** Errors and promises *)

Record Error : Type := mkError {
  err_name : string;
  message : option string
}.

Definition new_Error (msg : string) : Error :=
  {| err_name := "Error"; message := Some msg |}.

(** What [e.message.includes(...)] throws when [e.message] is undefined. *)
Definition TypeError_undefined_includes : Error :=
  {| err_name := "TypeError";
     message := Some "Cannot read properties of undefined (reading 'includes')" |}.

Inductive outcome (A : Type) : Type :=
| Resolved (a : A)
| Rejected (e : Error).
Arguments Resolved {A} a.
Arguments Rejected {A} e.

(** The part of the environment an [async] function acts on. *)
Record World : Type := mkWorld {
  requests : nat;      (* calls of the remote operation so far *)
  sleeps : list Z      (* awaited [setTimeout] delays, oldest first *)
}.

Definition Async (A : Type) : Type := World -> outcome A * World.

Definition ret {A} (a : A) : Async A := fun w => (Resolved a, w).

Definition throw {A} (e : Error) : Async A := fun w => (Rejected e, w).

Definition bind {A B} (c : Async A) (k : A -> Async B) : Async B :=
  fun w =>
    match c w with
    | (Resolved a, w') => k a w'
    | (Rejected e, w') => (Rejected e, w')
    end.

(** [try { c } catch (err) { handler err }]. *)
Definition try_catch {A} (c : Async A) (handler : Error -> Async A) : Async A :=
  fun w =>
    match c w with
    | (Resolved a, w') => (Resolved a, w')
    | (Rejected e, w') => handler e w'
    end.

(** [await new Promise(resolve => setTimeout(resolve, ms))]. *)
Definition sleep (ms : Z) : Async unit :=
  fun w => (Resolved tt, {| requests := requests w; sleeps := sleeps w ++ [ms] |}).

(** A call of a remote operation whose [k]-th invocation overall has the
    outcome [script k]. *)
Definition invoke {A} (script : nat -> outcome A) : Async A :=
  fun w =>
    (script (requests w),
     {| requests := S (requests w); sleeps := sleeps w |}).

End Js.

Import Js.

Notation "x <- c ;; k" := (bind c (fun x => k))
  (at level 61, c at next level, right associativity).
Notation "c ;;; k" := (bind c (fun _ => k))
  (at level 61, right associativity).

(** ** Data model

    [types.ts] is not among the sources; the records below have the fields
    that the two sources read and write. *)

(** One [{year, kurangBayar}] pair of the model's answer. *)
Record Arrear : Type := mkArrear {
  year : Z;
  kurangBayar : float
}.

(** One item of the parsed answer, shaped by [taxRecordSchema]. *)
Record RawItem : Type := mkRawItem {
  item_nama : string;
  item_nop : string;
  item_arrears : list Arrear
}.

(** The object that the callback of [rawData.map] returns. *)
Record TaxRecord : Type := mkTaxRecord {
  nama : string;
  nop : string;
  arrears : Obj (option float);     (* Record<number, number | null> *)
  total : float;
  notes : list string
}.

(** The object that [generateSummary] returns. *)
Record ValidationSummary : Type := mkValidationSummary {
  totalRecords : nat;
  duplicates : list string;
  anomalies : list string
}.

(** What [JSON.parse] makes of a body, as far as [processTaxPDF] goes on
    with it: the body is not JSON and [JSON.parse] throws a [SyntaxError];
    or the value is the array of items that the schema declares; or the
    body is JSON but its value is something else (an object, [null], an
    item without an [arrears] array, ...), on which [rawData.map] or its
    callback throws a [TypeError]. *)
Inductive Parsed : Type :=
| ParseError (syntaxError : Error)
| ParsedArray (rawData : list RawItem)
| ParsedOther (typeError : Error).

(** The answer of [ai.models.generateContent]; [text] may be undefined. *)
Record Response : Type := mkResponse {
  text : option string
}.

(** An uploaded file: its media type and the base64 payload that the
    [FileReader] data URL carries after the comma. *)
Record File : Type := mkFile {
  file_type : string;
  file_base64 : string
}.

(** The React state of [App] that the handlers read and write. *)
Record AppState : Type := mkAppState {
  records : list TaxRecord;
  isLoading : bool;
  error : option string
}.

(** An element of the array that [exportToCSV] joins into a row. *)
Inductive Cell : Type :=
| CNumber (x : float)
| CString (s : string)
| CUndefined.

(** The double quote character. *)
Definition dquote : string := String (ascii_of_nat 34) EmptyString.

(** The newline that separates CSV rows. *)
Definition newline : string := String (ascii_of_nat 10) EmptyString.

(** U+FEFF as the Blob encodes it in UTF-8. *)
Definition BOM : string :=
  String (ascii_of_nat 239) (String (ascii_of_nat 187)
    (String (ascii_of_nat 191) EmptyString)).

(** ** Sample environments

    Concrete instances of what the program takes from outside, on which
    the statements of Part II are instantiated. *)

Module Sample.

Definition world0 : World := {| requests := 0; sleeps := [] |}.

Definition rate_limited : Error :=
  new_Error "got status: 429 Too Many Requests".

Definition unavailable : Error :=
  new_Error "got status: 503 Service Unavailable".

Definition bad_request : Error :=
  new_Error "got status: 400 Bad Request".

Definition marker_like : Error := new_Error "QUOTA_EXCEEDED".

(** Two rate-limited calls, then success. *)
Definition flaky (k : nat) : outcome string :=
  match k with
  | O | S O => Rejected rate_limited
  | _ => Resolved "done"
  end.

Definition always (e : Error) (k : nat) : outcome string := Rejected e.

(** What [rawData.map] throws when the body is an object. *)
Definition not_an_array : Error :=
  {| err_name := "TypeError";
     message := Some "rawData.map is not a function" |}.

(** A stand-in for [JSON.parse] on the empty array, on the empty object
    and on the bodies listed in [table]; every other body is refused. *)
Definition JSON_parse_table (table : list (string * list RawItem))
    (s : string) : Parsed :=
  if String.eqb s "[]" then ParsedArray []
  else if String.eqb s "{}" then ParsedOther not_an_array
  else match find (fun entry => String.eqb (fst entry) s) table with
       | Some entry => ParsedArray (snd entry)
       | None => ParseError {| err_name := "SyntaxError";
                               message := Some "Unexpected token" |}
       end.

(** The integer a binary64 value denotes, when it denotes one. *)
Definition integral_value (x : float) : option Z :=
  match Prim2SF x with
  | S754_zero _ => Some 0
  | S754_finite s m e =>
      let magnitude :=
        if 0 <=? e then Some (Z.pos m * 2 ^ e)
        else if Z.pos m mod 2 ^ (- e) =? 0 then Some (Z.pos m / 2 ^ (- e))
        else None in
      match magnitude with
      | Some v => Some (if s then - v else v)
      | None => None
      end
  | _ => None
  end.

(** A stand-in for [Number.prototype.toString] that prints the integers in
    decimal, as JavaScript does below 10^21; it is not meant for other
    values, for which it prints a question mark. *)
Definition Number_toString_integers (x : float) : string :=
  match integral_value x with
  | Some z => String_of_int z
  | None => "?"
  end.

Definition budi_item : RawItem :=
  {| item_nama := "Budi";
     item_nop := "123";
     item_arrears :=
       [ {| year := 2021; kurangBayar := 0 |};
         {| year := 2019; kurangBayar := 999 |};
         {| year := 2022; kurangBayar := 150.5 |};
         {| year := 2023; kurangBayar := -20 |};
         {| year := 2022; kurangBayar := 200 |} ] |}.

Definition budi_body : string := "[budi]".

Definition parse : string -> Parsed :=
  JSON_parse_table [(budi_body, [budi_item])].

Definition pdf : File :=
  {| file_type := "application/pdf"; file_base64 := "JVBERi0=" |}.

(** An endpoint that answers every request with the body of Budi. *)
Definition answers_budi (k : nat) (data mime : string) : outcome Response :=
  Resolved {| text := Some budi_body |}.

(** An endpoint that answers every request with [body]. *)
Definition answers_with (body : string) (k : nat) (data mime : string)
  : outcome Response :=
  Resolved {| text := Some body |}.

(** An endpoint whose first answer has no text. *)
Definition answers_nothing (k : nat) (data mime : string) : outcome Response :=
  Resolved {| text := None |}.

(** An endpoint that answers the first request and refuses the others as
    malformed. *)
Definition answers_once (k : nat) (data mime : string) : outcome Response :=
  match k with
  | O => Resolved {| text := Some budi_body |}
  | _ => Rejected bad_request
  end.

(** An endpoint that rejects every request with [e]. *)
Definition rejects (e : Error) (k : nat) (data mime : string)
  : outcome Response := Rejected e.

(** The record of the CSV example. *)
Definition budi_record : TaxRecord :=
  {| nama := "Budi";
     nop := "123";
     arrears := [(2020, None); (2021, Some 500%float)];
     total := 500;
     notes := [] |}.

Definition with_nop (id : string) (stored recomputed : float) : TaxRecord :=
  {| nama := "Wajib Pajak";
     nop := id;
     arrears := [(2020, Some recomputed)];
     total := stored;
     notes := [] |}.

(** A state that already holds a record of an earlier batch. *)
Definition committed : AppState :=
  {| records := [budi_record]; isLoading := false; error := None |}.

(** Records whose identifiers are A, B, A, C, A; the first one stores a
    total of 100 where the recomputed sum is 85. *)
Definition sample_records : list TaxRecord :=
  [with_nop "A" 100 85; with_nop "B" 85 85; with_nop "A" 85 85;
   with_nop "C" 1 1; with_nop "A" 0 (-3)].

(** Three calls that find the service unavailable, then success. *)
Definition recovers (k : nat) : outcome string :=
  match k with
  | O | S O | S (S O) => Rejected unavailable
  | _ => Resolved "done"
  end.

(** A rate-limited call, then a refusal. *)
Definition refused_after_retry (k : nat) : outcome string :=
  match k with
  | O => Rejected rate_limited
  | _ => Rejected bad_request
  end.

(** An answer that carries no year twice, and the same answer with its
    pairs in the opposite order. *)
Definition distinct_item : RawItem :=
  {| item_nama := "Siti";
     item_nop := "456";
     item_arrears :=
       [ {| year := 2021; kurangBayar := 0 |};
         {| year := 2022; kurangBayar := 150.5 |};
         {| year := 2023; kurangBayar := -20 |} ] |}.

Definition distinct_item_reversed : RawItem :=
  {| item_nama := "Siti";
     item_nop := "456";
     item_arrears := rev (item_arrears distinct_item) |}.

End Sample.

(** ** The program *)

Section Program.

(** [constants.ts] is not among the sources: the inclusive year bounds and
    the list of configured years are parameters of the development. *)
Variables START_YEAR END_YEAR : Z.
Variable YEARS : list Z.

(** [JSON.parse], followed by what its value is to [processTaxPDF]. *)
Variable JSON_parse : string -> Parsed.

(** [Number.prototype.toString], as [Array.prototype.join] applies it. *)
Variable Number_toString : float -> string.

(** The model endpoint: the outcome of the [k]-th request ever sent, given
    the payload and media type it carries (model name, prompt and schema
    are the same in every request). *)
Variable generateContent : nat -> string -> string -> outcome Response.

(** *** geminiService.ts *)

Definition isRetryable (err : Error) : bool :=
  match message err with
  | Some m => includes m "429" || includes m "500" || includes m "503"
  | None => false
  end.

(** The body of [withRetry]'s [for] loop over the remaining indices. *)
Fixpoint withRetry_loop {T} (fn : Async T) (maxRetries : Z)
    (indices : list Z) (delay : Z) : Async T :=
  match indices with
  | [] => throw (new_Error "Max retries exceeded")
  | i :: rest =>
      try_catch fn (fun err =>
        if (i =? maxRetries - 1) || negb (isRetryable err) then throw err
        else
          sleep delay ;;;
          withRetry_loop fn maxRetries rest (delay * 2))
  end.

Definition withRetry {T} (fn : Async T) (maxRetries : Z) : Async T :=
  withRetry_loop fn maxRetries (for_range 0 maxRetries) 2000.

Definition default_maxRetries : Z := 3.

(** One call of [ai.models.generateContent]. *)
Definition request (fileBase64 mimeType : string) : Async Response :=
  invoke (fun k => generateContent k fileBase64 mimeType).

(** [response.text || "[]"]: undefined and the empty string are falsy. *)
Definition text_or_empty_array (response : Response) : string :=
  match text response with
  | None => "[]"
  | Some EmptyString => "[]"
  | Some s => s
  end.

Definition in_range (y : Z) : bool :=
  (y >=? START_YEAR) && (y <=? END_YEAR).

(** [numVal !== null && numVal > 0 ? numVal : 0]. *)
Definition positive_or_zero (val : option float) : float :=
  match val with
  | Some numVal => if PrimFloat.ltb 0 numVal then numVal else 0%float
  | None => 0%float
  end.

(** [Object.values(m).reduce((sum, val) => sum + ..., 0)]. *)
Definition sum_positive (m : Obj (option float)) : float :=
  fold_left (fun sum val => PrimFloat.add sum (positive_or_zero val))
            (Object_values m) 0%float.

(** The year map after the initialisation loop. *)
Definition initial_arrearsMap : Obj (option float) :=
  fold_left (fun m y => obj_set m y None)
            (for_range START_YEAR (END_YEAR + 1)) [].

(** The year map after [item.arrears.forEach]. *)
Definition fill_arrearsMap (m : Obj (option float)) (arr : list Arrear)
  : Obj (option float) :=
  fold_left (fun m a =>
               if in_range (year a)
               then obj_set m (year a) (Some (kurangBayar a))
               else m)
            arr m.

(** The callback of [rawData.map]. *)
Definition normalize (item : RawItem) : TaxRecord :=
  let arrearsMap := fill_arrearsMap initial_arrearsMap (item_arrears item) in
  let total := sum_positive arrearsMap in
  {| nama := item_nama item;
     nop := item_nop item;
     arrears := arrearsMap;
     total := total;
     notes := [] |}.

Definition processTaxPDF (fileBase64 mimeType : string) : Async (list TaxRecord) :=
  response <- withRetry (request fileBase64 mimeType) default_maxRetries ;;
  match JSON_parse (text_or_empty_array response) with
  | ParseError syntaxError => throw syntaxError
  | ParsedArray rawData => ret (map normalize rawData)
  | ParsedOther typeError => throw typeError
  end.

(** *** App.tsx *)

Definition QUOTA_MESSAGE : string :=
  "Kuota API sistem saat ini penuh (Rate Limit Exceeded). Silakan gunakan 'API Key Sendiri' dari Google AI Studio atau coba lagi dalam beberapa menit.".

Definition FAILURE_MESSAGE : string :=
  "Gagal memproses file. Pastikan dokumen jelas dan format PDF/Gambar didukung.".

(** The inner [catch (procErr)] of the upload loop. *)
Definition rethrow_procErr {A} (procErr : Error) : Async A :=
  match message procErr with
  | None => throw TypeError_undefined_includes
  | Some m =>
      if includes m "429" then throw (new_Error "QUOTA_EXCEEDED")
      else throw procErr
  end.

(** The [for] loop of [handleFileUpload] from index [i] on, [newRecords]
    being the local array filled so far. *)
Fixpoint upload_loop (fileList : list File) (i : Z)
    (newRecords : list TaxRecord) : Async (list TaxRecord) :=
  match fileList with
  | [] => ret newRecords
  | file :: rest =>
      (if i >? 0 then sleep 1500 else ret tt) ;;;
      result <- try_catch (processTaxPDF (file_base64 file) (file_type file))
                          rethrow_procErr ;;
      upload_loop rest (i + 1) (newRecords ++ result)
  end.

(** The test of the outer [catch (err)]. *)
Definition is_quota_error (err : Error) : bool :=
  match message err with
  | Some m => String.eqb m "QUOTA_EXCEEDED" || includes m "429"
  | None => false
  end.

(** [handleFileUpload]; [files] is [event.target.files], possibly null. *)
Definition handleFileUpload (files : option (list File)) (st : AppState)
  : World -> AppState * World :=
  fun w =>
    match files with
    | None => (st, w)
    | Some [] => (st, w)
    | Some fileList =>
        match upload_loop fileList 0 [] w with
        | (Resolved newRecords, w') =>
            ({| records := records st ++ newRecords;
                isLoading := false;
                error := None |}, w')
        | (Rejected err, w') =>
            ({| records := records st;
                isLoading := false;
                error := Some (if is_quota_error err then QUOTA_MESSAGE
                               else FAILURE_MESSAGE) |}, w')
        end
    end.

(** How [Array.prototype.join] renders one element. *)
Definition Cell_toString (c : Cell) : string :=
  match c with
  | CNumber x => Number_toString x
  | CString s => s
  | CUndefined => EmptyString
  end.

Definition join_cells (sep : string) (cells : list Cell) : string :=
  join sep (map Cell_toString cells).

(** [record.arrears[year] !== null ? record.arrears[year] : ''] *)
Definition year_cell (record : TaxRecord) (year : Z) : Cell :=
  match obj_get (arrears record) year with
  | Some None => CString EmptyString
  | Some (Some amount) => CNumber amount
  | None => CUndefined
  end.

Definition rowData (record : TaxRecord) : list Cell :=
  [CString (dquote ++ nama record ++ dquote)%string;
   CString ("'" ++ nop record)%string]
  ++ map (year_cell record) YEARS
  ++ [CNumber (total record)].

Definition headers : list string :=
  ["Nama"; "NOP"] ++ map String_of_int YEARS ++ ["Total"].

(** [exportToCSV]: the text handed to the [Blob], or [None] when the
    handler returns without producing a file. *)
Definition exportToCSV (records : list TaxRecord) : option string :=
  match records with
  | [] => None
  | _ =>
      let rows := map (fun record => join_cells "," (rowData record)) records in
      let csvContent := join newline (join "," headers :: rows) in
      Some (BOM ++ csvContent)%string
  end.

Definition anomaly_message (r : TaxRecord) : string :=
  ("Ketidaksesuaian total untuk NOP " ++ nop r)%string.

(** [Math.abs(calculatedTotal - r.total) > 0.01] *)
Definition total_mismatch (r : TaxRecord) : bool :=
  let calculatedTotal := sum_positive (arrears r) in
  PrimFloat.ltb 0.01%float (PrimFloat.abs (PrimFloat.sub calculatedTotal (total r))).

Definition generateSummary (records : list TaxRecord) : ValidationSummary :=
  let nops := map nop records in
  let duplicates :=
    filter_indexed (fun nop index => negb (indexOf nops nop =? index)) nops in
  let anomalies :=
    fold_left (fun anomalies r =>
                 if total_mismatch r then anomalies ++ [anomaly_message r]
                 else anomalies)
              records [] in
  {| totalRecords := List.length records;
     duplicates := Array_from_Set duplicates;
     anomalies := anomalies |}.

(** *** Vocabulary of the statements

    The functions below are not part of the program: the properties of
    Part II are phrased with them. *)

(** The delays awaited before retries [1 .. count]: [delay], doubled each
    time. *)
Fixpoint backoff (delay : Z) (count : nat) : list Z :=
  match count with
  | O => []
  | S count' => delay :: backoff (delay * 2) count'
  end.

(** The amount the model's answer gives for year [y]: that of the last pair
    carrying [y], if any. *)
Definition extracted_amount (arr : list Arrear) (y : Z) : option float :=
  match find (fun a => year a =? y) (rev arr) with
  | Some a => Some (kurangBayar a)
  | None => None
  end.

(** The order in which [Object.values] visits the years [lo .. hi]. *)
Definition enumeration_order (lo hi : Z) : list Z :=
  filter is_array_index (for_range lo (hi + 1))
  ++ filter (fun y => negb (is_array_index y)) (for_range lo (hi + 1)).

(** The number of occurrences of [x] in [xs]. *)
Definition occurrences (xs : list string) (x : string) : nat :=
  count_occ string_dec xs x.

(** The elements of [later] that repeat an element met before them,
    [seen] holding what precedes [later]. *)
Fixpoint repeats (seen later : list string) : list string :=
  match later with
  | [] => []
  | x :: rest =>
      if Set_has seen x then x :: repeats (seen ++ [x]) rest
      else repeats (seen ++ [x]) rest
  end.

(** The extractions a batch performs, file after file from index [i] on:
    their outcomes in order, up to and including the first rejected one,
    and the world they leave. *)
Fixpoint extractions (fileList : list File) (i : Z) (w : World)
  : list (outcome (list TaxRecord)) * World :=
  match fileList with
  | [] => ([], w)
  | file :: rest =>
      let w1 := if i >? 0 then snd (sleep 1500 w) else w in
      match processTaxPDF (file_base64 file) (file_type file) w1 with
      | (Resolved result, w2) =>
          let (outs, w3) := extractions rest (i + 1) w2 in
          (Resolved result :: outs, w3)
      | (Rejected e, w2) => ([Rejected e], w2)
      end
  end.

(** The records of the extractions that succeeded. *)
Definition extracted_records (outs : list (outcome (list TaxRecord)))
  : list TaxRecord :=
  flat_map (fun o => match o with
                     | Resolved result => result
                     | Rejected _ => []
                     end) outs.

(** The error that the inner [catch] throws for [procErr]. *)
Definition rethrown (procErr : Error) : Error :=
  match message procErr with
  | None => TypeError_undefined_includes
  | Some m => if includes m "429" then new_Error "QUOTA_EXCEEDED" else procErr
  end.

(** The error's message contains 429. *)
Definition mentions_429 (e : Error) : bool :=
  match message e with
  | Some m => includes m "429"
  | None => false
  end.

(** The error's message is the marker that the upload loop throws. *)
Definition is_quota_marker (e : Error) : bool :=
  match message e with
  | Some m => String.eqb m "QUOTA_EXCEEDED"
  | None => false
  end.

(** [sep] followed by a part, for every part. *)
Fixpoint each_prefixed (sep : string) (parts : list string) : string :=
  match parts with
  | [] => EmptyString
  | p :: rest => sep ++ p ++ each_prefixed sep rest
  end.

(** The text of the column of [year] in the row of [record]. *)
Definition csv_cell (record : TaxRecord) (year : Z) : string :=
  match obj_get (arrears record) year with
  | Some (Some amount) => Number_toString amount
  | Some None => EmptyString
  | None => EmptyString
  end.

(** The row of [record]: the quoted name, the identifier after an
    apostrophe, one column per configured year, the total. *)
Definition csv_row (record : TaxRecord) : string :=
  dquote ++ nama record ++ dquote ++ ",'" ++ nop record
  ++ each_prefixed "," (map (csv_cell record) YEARS)
  ++ "," ++ Number_toString (total record).

Definition csv_header : string :=
  "Nama,NOP" ++ each_prefixed "," (map String_of_int YEARS) ++ ",Total".

(** The sum of a list of delays. *)
Definition total_wait (delays : list Z) : Z := fold_right Z.add 0 delays.

(** The strictly positive amounts among the entries of a year map. *)
Fixpoint positive_amounts (vals : list (option float)) : list float :=
  match vals with
  | [] => []
  | Some x :: rest =>
      if PrimFloat.ltb 0 x then x :: positive_amounts rest
      else positive_amounts rest
  | None :: rest => positive_amounts rest
  end.

(** A binary64 value, as the specification of the floating-point
    operations sees it, that does not carry a minus sign. *)
Definition not_negative (f : spec_float) : Prop :=
  match f with
  | S754_zero s | S754_infinity s | S754_finite s _ _ => s = false
  | S754_nan => True
  end.

(** The cell of a year whose entry is [amount], or the null marker. *)
Definition cell_of_amount (amount : option float) : Cell :=
  match amount with
  | Some v => CNumber v
  | None => CString EmptyString
  end.

(** The remediation block under the error banner:
    [error && ... error.includes('Kuota') && ...]. *)
Definition key_hint_shown (st : AppState) : bool :=
  match error st with
  | None => false
  | Some EmptyString => false
  | Some msg => includes msg "Kuota"
  end.


(** A record as the normalisation leaves it: one entry per configured
    year, in order, the total recomputed from the entries, no notes. *)
Definition normalised (r : TaxRecord) : Prop :=
  map fst (arrears r) = for_range START_YEAR (END_YEAR + 1)
  /\ total r = sum_positive (arrears r)
  /\ notes r = [].


(** Propositional steps.  The functions of the environment are set aside
    first, so that no proof picks one of them up as an implication and
    comes to depend on it. *)
Ltac set_functions_aside :=
  repeat match goal with
         | f : ?A -> ?B |- _ =>
             lazymatch type of (A -> B) with
             | Prop => fail
             | _ => clear f
             end
         end.

Ltac propositional := set_functions_aside; tauto.

(* ================================================================== *)
(** * Part II: properties *)
(* ================================================================== *)

(** ** Substring search *)

Lemma prefix_spec (p s : string) :
  String.prefix p s = true <-> exists t, s = (p ++ t)%string.
Proof using.
  revert s; induction p as [|c p IH]; intros s.
  - split; [intros _; exists s; reflexivity | destruct s; reflexivity].
  - destruct s as [|d s]; simpl.
    + split; [discriminate | intros [t Ht]; discriminate].
    + destruct (Ascii.ascii_dec c d) as [->|Hcd].
      * rewrite IH. split; intros [t Ht]; exists t.
        -- now rewrite Ht.
        -- now injection Ht.
      * split; [discriminate|].
        intros [t Ht]. injection Ht as Hd _. congruence.
Qed.

Lemma includes_unfold (s sub : string) :
  includes s sub =
  String.prefix sub s
  || match s with
     | EmptyString => false
     | String _ s' => includes s' sub
     end.
Proof using.
  destruct s as [|c s]; cbn [includes];
    [destruct (String.prefix sub EmptyString)
    |destruct (String.prefix sub (String c s))]; reflexivity.
Qed.

Lemma includes_spec (s sub : string) :
  includes s sub = true <->
  exists pre post, s = (pre ++ sub ++ post)%string.
Proof using.
  induction s as [|c s IH]; rewrite includes_unfold, orb_true_iff, prefix_spec.
  - split.
    + intros [[t Ht]|Hf]; [|discriminate]. now exists EmptyString, t.
    + intros (pre & post & H). left.
      destruct pre; [|discriminate]. now exists post.
  - rewrite IH. split.
    + intros [[t Ht]|(pre & post & ->)].
      * now exists EmptyString, t.
      * now exists (String c pre), post.
    + intros (pre & post & H). destruct pre as [|d pre].
      * left. now exists post.
      * right. injection H as _ H. now exists pre, post.
Qed.

(** ** Counted loops *)

Lemma for_range_nil (lo hi : Z) : hi <= lo -> for_range lo hi = [].
Proof using.
  intros H. unfold for_range.
  replace (Z.to_nat (hi - lo)) with 0%nat by lia. reflexivity.
Qed.

Lemma for_range_cons (lo hi : Z) :
  lo < hi -> for_range lo hi = lo :: for_range (lo + 1) hi.
Proof using.
  intros H. unfold for_range.
  replace (Z.to_nat (hi - lo)) with (S (Z.to_nat (hi - (lo + 1)))) by lia.
  cbn [seq map]. f_equal; [lia|].
  rewrite <- seq_shift, map_map. apply map_ext. intros k. lia.
Qed.

Lemma for_range_ind (P : Z -> Z -> list Z -> Prop) :
  (forall lo hi, hi <= lo -> P lo hi []) ->
  (forall lo hi, lo < hi ->
     P (lo + 1) hi (for_range (lo + 1) hi) ->
     P lo hi (lo :: for_range (lo + 1) hi)) ->
  forall lo hi, P lo hi (for_range lo hi).
Proof using.
  intros Hnil Hcons lo hi.
  remember (Z.to_nat (hi - lo)) as n eqn:Hn.
  revert lo Hn. induction n as [|n IH]; intros lo Hn.
  - rewrite for_range_nil by lia. apply Hnil. lia.
  - rewrite for_range_cons by lia. apply Hcons; [lia|]. apply IH. lia.
Qed.

Lemma in_for_range (lo hi y : Z) :
  In y (for_range lo hi) <-> lo <= y < hi.
Proof using.
  pattern lo, hi, (for_range lo hi). apply for_range_ind; clear lo hi.
  - intros lo hi H. simpl. lia.
  - intros lo hi H IH. simpl. rewrite IH. lia.
Qed.

Lemma for_range_sorted (lo hi : Z) : StronglySorted Z.lt (for_range lo hi).
Proof using.
  pattern lo, hi, (for_range lo hi). apply for_range_ind; clear lo hi.
  - constructor.
  - intros lo hi H IH. constructor; [exact IH|].
    apply Forall_forall. intros y Hy. apply in_for_range in Hy. lia.
Qed.

Lemma sorted_NoDup (l : list Z) : StronglySorted Z.lt l -> NoDup l.
Proof using.
  induction 1 as [|x l Hs IH Hx]; constructor; [|exact IH].
  intros Hin. rewrite Forall_forall in Hx. specialize (Hx x Hin). lia.
Qed.

Lemma for_range_NoDup (lo hi : Z) : NoDup (for_range lo hi).
Proof using. apply sorted_NoDup, for_range_sorted. Qed.

(** ** The retry wrapper *)

Lemma for_range_from_zero (n : Z) :
  for_range 0 n = map Z.of_nat (seq 0 (Z.to_nat n)).
Proof using.
  unfold for_range. rewrite Z.sub_0_r. apply map_ext. intros k. lia.
Qed.

Lemma backoff_nth (count : nat) : forall (delay : Z) (k : nat),
  (k < count)%nat -> nth k (backoff delay count) 0 = delay * 2 ^ Z.of_nat k.
Proof using.
  induction count as [|count IH]; intros delay k Hk; [lia|].
  destruct k as [|k]; simpl backoff; cbn [nth].
  - change (Z.of_nat 0) with 0. rewrite Z.pow_0_r. lia.
  - rewrite IH by lia.
    rewrite Nat2Z.inj_succ, Z.pow_succ_r by lia. lia.
Qed.

Lemma isRetryable_spec (err : Error) :
  isRetryable err = true <->
  exists m, message err = Some m /\
    (includes m "429" = true \/ includes m "500" = true
     \/ includes m "503" = true).
Proof using.
  unfold isRetryable. destruct (message err) as [m|].
  - rewrite !orb_true_iff. split.
    + intros H. exists m. propositional.
    + intros (m' & Hm & H). injection Hm as ->. propositional.
  - split; [discriminate | intros (m & Hm & _); discriminate].
Qed.

Section RetryLoop.

Context {T : Type}.
Variable script : nat -> outcome T.
Variable maxRetries : Z.

(** An attempt that fails with an error that is not retryable ends the
    loop: the error is thrown and no timer is started. *)
Lemma withRetry_loop_not_retryable (i : Z) (rest : list Z) (delay : Z)
    (w : World) (err : Error) :
  script (requests w) = Rejected err ->
  isRetryable err = false ->
  withRetry_loop (invoke script) maxRetries (i :: rest) delay w =
  (Rejected err, {| requests := S (requests w); sleeps := sleeps w |}).
Proof using.
  intros Hs Hr. cbn [withRetry_loop]. unfold try_catch, invoke.
  rewrite Hs, Hr, orb_true_r. reflexivity.
Qed.

(** A successful attempt ends the loop with its result. *)
Lemma withRetry_loop_resolved (i : Z) (rest : list Z) (delay : Z)
    (w : World) (v : T) :
  script (requests w) = Resolved v ->
  withRetry_loop (invoke script) maxRetries (i :: rest) delay w =
  (Resolved v, {| requests := S (requests w); sleeps := sleeps w |}).
Proof using.
  intros Hs. cbn [withRetry_loop]. unfold try_catch, invoke.
  rewrite Hs. reflexivity.
Qed.

(** A retryable failure before the last index waits [delay] and goes on
    with the doubled delay. *)
Lemma withRetry_loop_retry (i : Z) (rest : list Z) (delay : Z)
    (w : World) (err : Error) :
  script (requests w) = Rejected err ->
  isRetryable err = true ->
  i <> maxRetries - 1 ->
  withRetry_loop (invoke script) maxRetries (i :: rest) delay w =
  withRetry_loop (invoke script) maxRetries rest (delay * 2)
    {| requests := S (requests w); sleeps := sleeps w ++ [delay] |}.
Proof using.
  intros Hs Hr Hi. cbn [withRetry_loop]. unfold try_catch at 1, invoke at 1.
  rewrite Hs, Hr. apply Z.eqb_neq in Hi. rewrite Hi. reflexivity.
Qed.

(** A failure at the last index is thrown whatever it is. *)
Lemma withRetry_loop_last (i : Z) (rest : list Z) (delay : Z)
    (w : World) (err : Error) :
  script (requests w) = Rejected err ->
  i = maxRetries - 1 ->
  withRetry_loop (invoke script) maxRetries (i :: rest) delay w =
  (Rejected err, {| requests := S (requests w); sleeps := sleeps w |}).
Proof using.
  intros Hs Hi. cbn [withRetry_loop]. unfold try_catch, invoke.
  apply Z.eqb_eq in Hi. rewrite Hs, Hi. reflexivity.
Qed.

(** Failures that stay retryable use up the indices: the loop makes one
    call per index and throws the error of the last call. *)
Lemma withRetry_loop_persistent (n : nat) : forall (a : nat) (delay : Z) (w : World),
  Z.of_nat (a + n) = maxRetries ->
  (1 <= n)%nat ->
  (forall k, (k < n)%nat ->
     exists e, script (requests w + k)%nat = Rejected e /\ isRetryable e = true) ->
  exists e,
    script (requests w + n - 1)%nat = Rejected e /\
    withRetry_loop (invoke script) maxRetries (map Z.of_nat (seq a n)) delay w =
    (Rejected e, {| requests := (requests w + n)%nat;
                    sleeps := sleeps w ++ backoff delay (n - 1) |}).
Proof using.
  induction n as [|n IH]; intros a delay w Ha Hn Hfail; [lia|].
  destruct (Hfail 0%nat ltac:(lia)) as (e0 & He0 & Hr0).
  rewrite Nat.add_0_r in He0.
  cbn [seq map]. destruct n as [|n].
  - exists e0. split.
    + replace (requests w + 1 - 1)%nat with (requests w) by lia. exact He0.
    + rewrite (withRetry_loop_last _ _ _ _ e0) by (assumption || lia).
      cbn [backoff Nat.sub]. rewrite app_nil_r.
      replace (requests w + 1)%nat with (S (requests w)) by lia. reflexivity.
  - rewrite (withRetry_loop_retry _ _ _ _ e0) by (assumption || lia).
    destruct (IH (S a) (delay * 2)
                {| requests := S (requests w); sleeps := sleeps w ++ [delay] |})
      as (e & He & Hrun).
    + lia.
    + lia.
    + intros k Hk. destruct (Hfail (S k) ltac:(lia)) as (e & He & Hr).
      exists e. split; [|exact Hr]. cbn [requests].
      replace (S (requests w) + k)%nat with (requests w + S k)%nat by lia.
      exact He.
    + exists e. split.
      * cbn [requests] in He.
        replace (requests w + S (S n) - 1)%nat
          with (S (requests w) + S n - 1)%nat by lia.
        exact He.
      * rewrite Hrun. cbn [requests sleeps].
        replace (S (S n) - 1)%nat with (S n) by lia.
        replace (S n - 1)%nat with n by lia.
        cbn [backoff]. rewrite <- app_assoc. cbn [app].
        replace (S (requests w) + S n)%nat
          with (requests w + S (S n))%nat by lia.
        reflexivity.
Qed.

(** The loop never makes more calls than it has indices. *)
Lemma withRetry_loop_calls (indices : list Z) : forall (delay : Z) (w : World),
  (requests (snd (withRetry_loop (invoke script) maxRetries indices delay w))
   <= requests w + List.length indices)%nat.
Proof using.
  induction indices as [|i rest IH]; intros delay w.
  - cbn. lia.
  - cbn [withRetry_loop]. unfold try_catch at 1, invoke at 1.
    destruct (script (requests w)) as [v|err]; cbn [snd requests List.length].
    + lia.
    + destruct ((i =? maxRetries - 1) || negb (isRetryable err)).
      * cbn. lia.
      * unfold bind at 1, sleep at 1.
        specialize (IH (delay * 2)
          {| requests := S (requests w); sleeps := sleeps w ++ [delay] |}).
        cbn [requests] in IH. cbn [requests sleeps]. lia.
Qed.

End RetryLoop.

(** C3. With the default of three attempts, a function whose first two
    calls fail with an error whose message contains 429 and whose third
    call succeeds makes [withRetry] return the result of the third call;
    the wrapper has then made exactly three calls and awaited exactly two
    timers, 2000 ms and then 4000 ms. *)
Theorem withRetry_succeeds_on_third_call
    (T : Type) (script : nat -> outcome T) (w : World)
    (e1 e2 : Error) (m1 m2 : string) (v : T) :
  script (requests w) = Rejected e1 ->
  message e1 = Some m1 -> includes m1 "429" = true ->
  script (S (requests w)) = Rejected e2 ->
  message e2 = Some m2 -> includes m2 "429" = true ->
  script (S (S (requests w))) = Resolved v ->
  withRetry (invoke script) default_maxRetries w =
  (Resolved v, {| requests := (requests w + 3)%nat;
                  sleeps := sleeps w ++ [2000; 4000] |}).
Proof using.
  intros H1 Hm1 Hi1 H2 Hm2 Hi2 H3.
  assert (isRetryable e1 = true) as Hr1
    by (apply isRetryable_spec; exists m1; auto).
  assert (isRetryable e2 = true) as Hr2
    by (apply isRetryable_spec; exists m2; auto).
  unfold withRetry, default_maxRetries.
  change (for_range 0 3) with [0; 1; 2].
  rewrite (withRetry_loop_retry script 3 0 _ 2000 w e1) by (assumption || lia).
  rewrite (withRetry_loop_retry script 3 1 _ _ _ e2) by (assumption || lia).
  rewrite (withRetry_loop_resolved script 3 2 _ _ _ v) by assumption.
  cbn [requests sleeps]. rewrite <- app_assoc. cbn [app].
  replace (requests w + 3)%nat with (S (S (S (requests w)))) by lia.
  reflexivity.
Qed.

(** C4. [withRetry] treats an error as retryable exactly when its message
    contains 429, 500 or 503 as a substring.  A first failure that is not
    retryable is thrown at once: one call, no timer.  A first failure that
    is retryable, when a second attempt is allowed, is followed by a wait
    of 2000 ms and the rest of the loop.  Failures that stay retryable are
    attempted [maxRetries] times in all, with the delays 2000, 4000, ...
    between the attempts, and then the error of the last attempt is
    thrown.  In no case are more than [maxRetries] calls made. *)
Theorem withRetry_retry_policy
    (T : Type) (script : nat -> outcome T) (maxRetries : Z) (w : World) :
  1 <= maxRetries ->
  let n := Z.to_nat maxRetries in
  let run := withRetry (invoke script) maxRetries w in
  (forall err, isRetryable err = true <->
     exists m, message err = Some m /\
       exists pre post,
         m = (pre ++ "429" ++ post)%string \/
         m = (pre ++ "500" ++ post)%string \/
         m = (pre ++ "503" ++ post)%string)
  /\ (forall err,
        script (requests w) = Rejected err -> isRetryable err = false ->
        run = (Rejected err,
               {| requests := S (requests w); sleeps := sleeps w |}))
  /\ (forall err,
        script (requests w) = Rejected err -> isRetryable err = true ->
        2 <= maxRetries ->
        run = withRetry_loop (invoke script) maxRetries
                (for_range 1 maxRetries) 4000
                {| requests := S (requests w);
                   sleeps := sleeps w ++ [2000] |})
  /\ ((forall k, (k < n)%nat ->
         exists e, script (requests w + k)%nat = Rejected e
                   /\ isRetryable e = true) ->
      exists e,
        script (requests w + n - 1)%nat = Rejected e /\
        run = (Rejected e,
               {| requests := (requests w + n)%nat;
                  sleeps := sleeps w ++ backoff 2000 (n - 1) |}) /\
        forall k, (k < n - 1)%nat ->
          nth k (backoff 2000 (n - 1)) 0 = 2000 * 2 ^ Z.of_nat k)
  /\ (requests (snd run) <= requests w + n)%nat.
Proof using.
  intros Hmax n run. subst run. unfold withRetry.
  assert (forall err,
            script (requests w) = Rejected err -> isRetryable err = true ->
            2 <= maxRetries ->
            withRetry_loop (invoke script) maxRetries
              (for_range 0 maxRetries) 2000 w =
            withRetry_loop (invoke script) maxRetries
              (for_range 1 maxRetries) 4000
              {| requests := S (requests w);
                 sleeps := sleeps w ++ [2000] |}) as Hretry.
  { intros err Hs Hr H2. rewrite for_range_cons by lia.
    now rewrite (withRetry_loop_retry script maxRetries 0 _ 2000 w err)
      by (assumption || lia). }
  rewrite for_range_from_zero in *. fold n.
  assert (exists n', n = S n') as [n' Hn'] by (exists (Nat.pred n); lia).
  split; [|split; [|split; [exact Hretry|split]]].
  - intros err. rewrite isRetryable_spec. split.
    + intros (m & Hm & H). exists m. split; [exact Hm|].
      destruct H as [H|[H|H]]; apply includes_spec in H as (pre & post & H);
        exists pre, post; auto.
    + intros (m & Hm & pre & post & H). exists m. split; [exact Hm|].
      destruct H as [H|[H|H]]; [left|right; left|right; right];
        apply includes_spec; exists pre, post; exact H.
  - intros err Hs Hr. rewrite Hn'. cbn [seq map].
    now apply withRetry_loop_not_retryable.
  - intros Hfail.
    destruct (withRetry_loop_persistent script maxRetries n 0%nat 2000 w)
      as (e & He & Hrun); [lia | lia | exact Hfail |].
    exists e. split; [exact He|]. split; [exact Hrun|].
    intros k Hk. now apply backoff_nth.
  - pose proof (withRetry_loop_calls script maxRetries
                  (map Z.of_nat (seq 0 n)) 2000 w) as H.
    now rewrite length_map, length_seq in H.
Qed.

(** ** Objects *)

Section Objects.

Context {V : Type}.
Implicit Types (o : Obj V) (k : Z) (v : V).

Lemma obj_get_set o k v k' :
  obj_get (obj_set o k v) k' = if k =? k' then Some v else obj_get o k'.
Proof using.
  induction o as [|[k0 v0] o IH]; simpl.
  - reflexivity.
  - destruct (k0 =? k) eqn:E0; simpl.
    + apply Z.eqb_eq in E0. subst k0. destruct (k =? k'); reflexivity.
    + rewrite IH. destruct (k0 =? k') eqn:E1; [|reflexivity].
      apply Z.eqb_eq in E1. subst k0. rewrite Z.eqb_sym, E0. reflexivity.
Qed.

Lemma obj_set_keys o k v :
  In k (map fst o) -> map fst (obj_set o k v) = map fst o.
Proof using.
  induction o as [|[k0 v0] o IH]; simpl; [propositional|].
  intros H. destruct (k0 =? k) eqn:E0; simpl; [reflexivity|].
  f_equal. apply IH. destruct H as [H|H]; [|exact H].
  apply Z.eqb_neq in E0. congruence.
Qed.

Lemma obj_set_fresh o k v :
  ~ In k (map fst o) -> obj_set o k v = o ++ [(k, v)].
Proof using.
  induction o as [|[k0 v0] o IH]; simpl; [reflexivity|].
  intros H. destruct (k0 =? k) eqn:E0.
  - apply Z.eqb_eq in E0. propositional.
  - f_equal. apply IH. propositional.
Qed.


(** An object without repeated keys is determined by its keys, in order,
    and by what [obj_get] returns for them. *)
Lemma obj_ext o (f : Z -> V) :
  NoDup (map fst o) ->
  (forall k, In k (map fst o) -> obj_get o k = Some (f k)) ->
  o = map (fun k => (k, f k)) (map fst o).
Proof using.
  induction o as [|[k0 v0] o IH]; simpl; [reflexivity|].
  intros Hnd Hget. inversion Hnd as [|? ? Hk0 Hnd']; subst.
  f_equal.
  - specialize (Hget k0 (or_introl eq_refl)).
    rewrite Z.eqb_refl in Hget. congruence.
  - apply IH; [exact Hnd'|]. intros k Hk.
    specialize (Hget k (or_intror Hk)).
    destruct (k0 =? k) eqn:E0; [|exact Hget].
    apply Z.eqb_eq in E0. subst. propositional.
Qed.

Lemma insert_by_key_head (e : Z * V) o :
  Forall (fun e' => fst e < fst e') o -> insert_by_key e o = e :: o.
Proof using.
  destruct o as [|e' o]; [reflexivity|].
  intros H. inversion H; subst. simpl.
  replace (fst e <? fst e') with true by (symmetry; apply Z.ltb_lt; assumption).
  reflexivity.
Qed.

(** Sorting leaves an object alone when its keys already ascend. *)
Lemma sort_by_key_sorted o :
  StronglySorted Z.lt (map fst o) -> sort_by_key o = o.
Proof using.
  induction o as [|e o IH]; [reflexivity|].
  simpl. intros H. inversion H as [|? ? Hs Hall]; subst.
  unfold sort_by_key in *. cbn [fold_right]. rewrite IH by exact Hs.
  apply insert_by_key_head.
  rewrite Forall_map in Hall. exact Hall.
Qed.

End Objects.

Lemma filter_sorted (p : Z -> bool) (l : list Z) :
  StronglySorted Z.lt l -> StronglySorted Z.lt (filter p l).
Proof using.
  induction 1 as [|x l Hs IH Hx]; simpl; [constructor|].
  destruct (p x); [|exact IH].
  constructor; [exact IH|].
  rewrite Forall_forall in *. intros y Hy.
  apply filter_In in Hy as [Hy _]. auto.
Qed.

Lemma filter_tabulate {V} (p : Z -> bool) (f : Z -> V) (l : list Z) :
  filter (fun e => p (fst e)) (map (fun k => (k, f k)) l) =
  map (fun k => (k, f k)) (filter p l).
Proof using.
  induction l as [|x l IH]; simpl; [reflexivity|].
  destruct (p x); simpl; now rewrite IH.
Qed.

Lemma keys_tabulate {V} (f : Z -> V) (l : list Z) :
  map fst (map (fun k => (k, f k)) l) = l.
Proof using. rewrite map_map. simpl. apply map_id. Qed.

(** [Object.values] of an object created with ascending keys. *)
Lemma Object_values_tabulate {V} (f : Z -> V) (l : list Z) :
  StronglySorted Z.lt l ->
  Object_values (map (fun k => (k, f k)) l) =
  map f (filter is_array_index l
         ++ filter (fun y => negb (is_array_index y)) l).
Proof using.
  intros Hs. unfold Object_values, own_properties.
  rewrite (filter_tabulate is_array_index).
  rewrite (filter_tabulate (fun y => negb (is_array_index y))).
  rewrite sort_by_key_sorted
    by (rewrite keys_tabulate; now apply filter_sorted).
  rewrite <- map_app, map_map. reflexivity.
Qed.

Lemma enumeration_order_ascending (lo hi : Z) :
  0 <= lo -> hi <= 4294967294 ->
  enumeration_order lo hi = for_range lo (hi + 1).
Proof using.
  intros Hlo Hhi. unfold enumeration_order.
  assert (forall y, In y (for_range lo (hi + 1)) -> is_array_index y = true) as H.
  { intros y Hy. apply in_for_range in Hy. unfold is_array_index.
    apply andb_true_iff. split; apply Z.leb_le; lia. }
  induction (for_range lo (hi + 1)) as [|y l IH]; [reflexivity|].
  simpl. rewrite (H y) by now left. simpl. f_equal.
  apply IH. intros z Hz. apply H. now right.
Qed.

(** ** Normalisation *)

Lemma in_range_spec (y : Z) :
  in_range y = true <-> START_YEAR <= y <= END_YEAR.
Proof using.
  unfold in_range. rewrite andb_true_iff, Z.geb_le, Z.leb_le. propositional.
Qed.

Lemma in_range_for_range (y : Z) :
  in_range y = true <-> In y (for_range START_YEAR (END_YEAR + 1)).
Proof using. rewrite in_range_spec, in_for_range. lia. Qed.

Lemma init_loop (years : list Z) : forall acc : Obj (option float),
  NoDup years ->
  (forall y, In y years -> ~ In y (map fst acc)) ->
  fold_left (fun m y => obj_set m y None) years acc =
  acc ++ map (fun y => (y, None)) years.
Proof using.
  induction years as [|y years IH]; intros acc Hnd Hfresh; simpl.
  - now rewrite app_nil_r.
  - inversion Hnd as [|? ? Hy Hnd']; subst.
    rewrite obj_set_fresh by (apply Hfresh; now left).
    rewrite IH; [now rewrite <- app_assoc | exact Hnd' |].
    intros z Hz. rewrite map_app, in_app_iff. simpl.
    intros [H|[H|[]]]; [|congruence].
    apply (Hfresh z); [now right | exact H].
Qed.

Lemma initial_arrearsMap_eq :
  initial_arrearsMap =
  map (fun y => (y, None)) (for_range START_YEAR (END_YEAR + 1)).
Proof using.
  unfold initial_arrearsMap. rewrite init_loop.
  - reflexivity.
  - apply for_range_NoDup.
  - intros y _ [].
Qed.

Lemma fill_arrearsMap_keys (arr : list Arrear) : forall m : Obj (option float),
  (forall y, in_range y = true -> In y (map fst m)) ->
  map fst (fill_arrearsMap m arr) = map fst m.
Proof using.
  induction arr as [|a arr IH]; intros m Hm; [reflexivity|].
  unfold fill_arrearsMap in *. cbn [fold_left].
  destruct (in_range (year a)) eqn:E.
  - rewrite IH; rewrite obj_set_keys by auto; auto.
  - now apply IH.
Qed.

Lemma extracted_amount_cons (a : Arrear) (arr : list Arrear) (y : Z) :
  extracted_amount (a :: arr) y =
  match extracted_amount arr y with
  | Some v => Some v
  | None => if year a =? y then Some (kurangBayar a) else None
  end.
Proof using.
  unfold extracted_amount. cbn [rev].
  induction (rev arr) as [|b l IH]; simpl.
  - destruct (year a =? y); reflexivity.
  - destruct (year b =? y); [reflexivity | exact IH].
Qed.

Lemma fill_arrearsMap_get (arr : list Arrear) (y : Z) :
  forall m : Obj (option float),
  obj_get (fill_arrearsMap m arr) y =
  match extracted_amount arr y with
  | Some v => if in_range y then Some (Some v) else obj_get m y
  | None => obj_get m y
  end.
Proof using.
  induction arr as [|a arr IH]; intros m; [reflexivity|].
  rewrite extracted_amount_cons.
  unfold fill_arrearsMap in *. cbn [fold_left]. rewrite IH.
  destruct (extracted_amount arr y) as [v|].
  - destruct (in_range y) eqn:Ey; [reflexivity|].
    destruct (in_range (year a)) eqn:Ea; [|reflexivity].
    rewrite obj_get_set. destruct (year a =? y) eqn:E; [|reflexivity].
    apply Z.eqb_eq in E. congruence.
  - destruct (in_range (year a)) eqn:Ea.
    + rewrite obj_get_set. destruct (year a =? y) eqn:E; [|reflexivity].
      apply Z.eqb_eq in E. subst y. now rewrite Ea.
    + destruct (year a =? y) eqn:E; [|reflexivity].
      apply Z.eqb_eq in E. subst y. now rewrite Ea.
Qed.

Lemma obj_get_tabulate {V} (f : Z -> V) (l : list Z) (y : Z) :
  obj_get (map (fun k => (k, f k)) l) y =
  if in_dec Z.eq_dec y l then Some (f y) else None.
Proof using.
  induction l as [|x l IH]; simpl; [reflexivity|].
  destruct (x =? y) eqn:E.
  - apply Z.eqb_eq in E. subst x.
    destruct (Z.eq_dec y y) as [E|N]; [reflexivity | congruence].
  - apply Z.eqb_neq in E. rewrite IH.
    destruct (Z.eq_dec x y) as [N|N]; [congruence|].
    destruct (in_dec Z.eq_dec y l); reflexivity.
Qed.

Lemma extracted_amount_None (arr : list Arrear) (y : Z) :
  extracted_amount arr y = None <-> (forall a, In a arr -> year a <> y).
Proof using.
  induction arr as [|a arr IH].
  - split; [intros _ a [] | reflexivity].
  - rewrite extracted_amount_cons.
    destruct (extracted_amount arr y) as [v|] eqn:E.
    + split; [discriminate|]. intros H.
      assert (Some v = None) as F by (apply IH; intros b Hb; apply H; now right).
      discriminate.
    + destruct (year a =? y) eqn:Ea.
      * apply Z.eqb_eq in Ea. split; [discriminate|].
        intros H. exfalso. apply (H a); [now left | exact Ea].
      * apply Z.eqb_neq in Ea. split; [|reflexivity].
        intros _ b [<-|Hb]; [exact Ea|]. now apply IH.
Qed.

Lemma extracted_amount_Some (arr : list Arrear) (y : Z) (v : float) :
  extracted_amount arr y = Some v ->
  exists a, In a arr /\ year a = y /\ kurangBayar a = v.
Proof using.
  induction arr as [|a arr IH]; [discriminate|].
  rewrite extracted_amount_cons.
  destruct (extracted_amount arr y) as [v'|].
  - intros H. destruct (IH H) as (b & Hb & Hy & Hv).
    exists b. split; [now right | auto].
  - destruct (year a =? y) eqn:Ea; [|discriminate].
    apply Z.eqb_eq in Ea. intros [= <-].
    exists a. split; [now left | auto].
Qed.

Lemma extracted_amount_filter (arr : list Arrear) (y : Z) :
  in_range y = true ->
  extracted_amount (filter (fun a => in_range (year a)) arr) y =
  extracted_amount arr y.
Proof using.
  intros Hy. induction arr as [|a arr IH]; [reflexivity|].
  cbn [filter]. destruct (in_range (year a)) eqn:Ea.
  - now rewrite !extracted_amount_cons, IH.
  - rewrite extracted_amount_cons, IH.
    destruct (year a =? y) eqn:E.
    + apply Z.eqb_eq in E. congruence.
    + now destruct (extracted_amount arr y).
Qed.

(** The year map of a normalised record, entry by entry. *)
Lemma normalize_arrears (item : RawItem) :
  arrears (normalize item) =
  map (fun y => (y, extracted_amount (item_arrears item) y))
      (for_range START_YEAR (END_YEAR + 1)).
Proof using.
  cbn [normalize arrears].
  assert (map fst (fill_arrearsMap initial_arrearsMap (item_arrears item))
          = for_range START_YEAR (END_YEAR + 1)) as Hkeys.
  { rewrite fill_arrearsMap_keys; rewrite initial_arrearsMap_eq, keys_tabulate.
    - reflexivity.
    - intros y. apply in_range_for_range. }
  rewrite <- Hkeys. apply obj_ext.
  - rewrite Hkeys. apply for_range_NoDup.
  - rewrite Hkeys. intros y Hy.
    rewrite fill_arrearsMap_get.
    replace (in_range y) with true
      by (symmetry; now apply in_range_for_range).
    destruct (extracted_amount (item_arrears item) y); [reflexivity|].
    rewrite initial_arrearsMap_eq, obj_get_tabulate.
    destruct (in_dec Z.eq_dec y _); [reflexivity | contradiction].
Qed.

(** C1. Whatever the year bounds and the extracted item, the year map of
    the normalised record has exactly one entry per year of
    [START_YEAR .. END_YEAR] and no other entry.  The entry of a year that
    no extracted pair carries is the null marker; the entry of a year that
    some pair carries is the amount of a pair of the answer with that year
    (the last one), literally, zero included.  Pairs whose year is outside
    the bounds are dropped: removing them from the answer changes neither
    the map nor the total. *)
Theorem normalize_covers_year_range (item : RawItem) :
  let r := normalize item in
  let arr := item_arrears item in
  map fst (arrears r) = for_range START_YEAR (END_YEAR + 1)
  /\ NoDup (map fst (arrears r))
  /\ (forall y, In y (map fst (arrears r)) <-> START_YEAR <= y <= END_YEAR)
  /\ (forall y, obj_get (arrears r) y =
                if in_range y then Some (extracted_amount arr y) else None)
  /\ (forall y, extracted_amount arr y = None <->
                forall a, In a arr -> year a <> y)
  /\ (forall y v, extracted_amount arr y = Some v ->
                  exists a, In a arr /\ year a = y /\ kurangBayar a = v)
  /\ normalize {| item_nama := item_nama item;
                  item_nop := item_nop item;
                  item_arrears := filter (fun a => in_range (year a)) arr |}
     = r.
Proof using.
  intros r arr.
  assert (map fst (arrears r) = for_range START_YEAR (END_YEAR + 1)) as Hkeys
    by (subst r; now rewrite normalize_arrears, keys_tabulate).
  split; [exact Hkeys|].
  split; [rewrite Hkeys; apply for_range_NoDup|].
  split; [intros y; rewrite Hkeys, in_for_range; lia|].
  split.
  { intros y. subst r. rewrite normalize_arrears, obj_get_tabulate.
    destruct (in_dec Z.eq_dec y _) as [Hy|Hy];
      destruct (in_range y) eqn:E; try reflexivity.
    - apply in_range_for_range in Hy. congruence.
    - apply in_range_for_range in E. contradiction. }
  split; [intros y; apply extracted_amount_None|].
  split; [intros y v; apply extracted_amount_Some|].
  assert (arrears (normalize
            {| item_nama := item_nama item; item_nop := item_nop item;
               item_arrears := filter (fun a => in_range (year a)) arr |})
          = arrears r) as Harr.
  { subst r. rewrite !normalize_arrears. cbn [item_arrears].
    apply map_ext_in. intros y Hy. f_equal.
    apply extracted_amount_filter. now apply in_range_for_range. }
  subst r. unfold normalize in *. cbn [arrears item_nama item_nop] in *.
  now rewrite Harr.
Qed.

(** ** The extraction function *)

Lemma fold_left_add_map {A} (f : A -> float) (l : list A) : forall s : float,
  fold_left (fun sum val => PrimFloat.add sum (f val)) l s =
  fold_left PrimFloat.add (map f l) s.
Proof using. induction l as [|x l IH]; intros s; simpl; [reflexivity | apply IH]. Qed.

(** What [processTaxPDF] does once the wrapped request has an outcome. *)
Lemma processTaxPDF_unfold (fileBase64 mimeType : string) (w : World) :
  processTaxPDF fileBase64 mimeType w =
  match withRetry (request fileBase64 mimeType) default_maxRetries w with
  | (Resolved response, w') =>
      match JSON_parse (text_or_empty_array response) with
      | ParseError syntaxError => (Rejected syntaxError, w')
      | ParsedArray rawData => (Resolved (map normalize rawData), w')
      | ParsedOther typeError => (Rejected typeError, w')
      end
  | (Rejected e, w') => (Rejected e, w')
  end.
Proof using.
  unfold processTaxPDF, bind.
  destruct (withRetry _ _ w) as [[response|e] w']; [|reflexivity].
  destruct (JSON_parse _); reflexivity.
Qed.

Lemma processTaxPDF_resolved (fileBase64 mimeType : string) (w w' : World)
    (recs : list TaxRecord) :
  processTaxPDF fileBase64 mimeType w = (Resolved recs, w') ->
  exists response rawData,
    withRetry (request fileBase64 mimeType) default_maxRetries w
      = (Resolved response, w')
    /\ JSON_parse (text_or_empty_array response) = ParsedArray rawData
    /\ recs = map normalize rawData.
Proof using.
  rewrite processTaxPDF_unfold.
  destruct (withRetry _ _ w) as [[response|e] w1]; [|discriminate].
  destruct (JSON_parse _) as [e|rawData|e] eqn:Hp;
    [discriminate | | discriminate].
  intros [= <- <-]. now exists response, rawData.
Qed.

(** [Object.values] of a normalised year map: the entries of the years in
    enumeration order. *)
Lemma normalize_Object_values (item : RawItem) :
  Object_values (arrears (normalize item)) =
  map (extracted_amount (item_arrears item))
      (enumeration_order START_YEAR END_YEAR).
Proof using.
  rewrite normalize_arrears, Object_values_tabulate by apply for_range_sorted.
  reflexivity.
Qed.

(** C2. In every record that [processTaxPDF] returns, the stored total is
    the sum, from 0 and in the order of [Object.values], of what the
    entries of the record's year map contribute: a strictly positive amount
    contributes itself, while an amount that is not strictly positive
    (zero, negative) and the null marker contribute 0.  The entries summed
    are those of the configured years, each once; when the years are array
    indices, as calendar years are, they are summed in ascending order. *)
Theorem processTaxPDF_total_is_positive_sum
    (fileBase64 mimeType : string) (w w' : World) (recs : list TaxRecord) :
  processTaxPDF fileBase64 mimeType w = (Resolved recs, w') ->
  Forall (fun r =>
            total r = fold_left PrimFloat.add
                        (map positive_or_zero (Object_values (arrears r)))
                        0%float
            /\ exists item,
                 r = normalize item /\
                 Object_values (arrears r) =
                 map (extracted_amount (item_arrears item))
                     (enumeration_order START_YEAR END_YEAR))
         recs
  /\ positive_or_zero None = 0%float
  /\ (forall x, PrimFloat.ltb 0 x = true -> positive_or_zero (Some x) = x)
  /\ (forall x, PrimFloat.ltb 0 x = false ->
                positive_or_zero (Some x) = 0%float)
  /\ (0 <= START_YEAR -> END_YEAR <= 4294967294 ->
      enumeration_order START_YEAR END_YEAR =
      for_range START_YEAR (END_YEAR + 1)).
Proof using.
  intros H. apply processTaxPDF_resolved in H as (resp & raw & _ & _ & ->).
  split; [|split; [reflexivity|split; [|split]]];
    [| | |apply enumeration_order_ascending].
  - apply Forall_forall. intros r Hr.
    apply in_map_iff in Hr as (item & <- & _). split.
    + cbn [normalize total arrears]. unfold sum_positive.
      apply fold_left_add_map.
    + exists item. split; [reflexivity | apply normalize_Object_values].
  - intros x Hx. cbn. now rewrite Hx.
  - intros x Hx. cbn. now rewrite Hx.
Qed.

Lemma request_resolved (fileBase64 mimeType : string) (w : World)
    (response : Response) :
  generateContent (requests w) fileBase64 mimeType = Resolved response ->
  withRetry (request fileBase64 mimeType) default_maxRetries w =
  (Resolved response, {| requests := S (requests w); sleeps := sleeps w |}).
Proof using.
  intros H. unfold withRetry, default_maxRetries, request.
  change (for_range 0 3) with [0; 1; 2].
  now apply (withRetry_loop_resolved
               (fun k => generateContent k fileBase64 mimeType)).
Qed.

Lemma text_or_empty_array_falsy (response : Response) :
  text response = None \/ text response = Some EmptyString ->
  text_or_empty_array response = "[]".
Proof using. unfold text_or_empty_array. now intros [-> | ->]. Qed.

Lemma text_or_empty_array_truthy (response : Response) :
  text_or_empty_array response <> "[]" ->
  exists s, text response = Some s /\ s <> EmptyString
            /\ text_or_empty_array response = s.
Proof using.
  unfold text_or_empty_array. destruct (text response) as [[|c s]|].
  - congruence.
  - intros _. exists (String c s). repeat split. discriminate.
  - congruence.
Qed.

(** C10. Provided [JSON.parse] reads the text [[]] as the empty array: when
    the wrapped request ends with a response whose text is undefined or
    empty, [processTaxPDF] resolves with the empty list of records.  A
    parse failure arises only from a response text that is a non-empty
    string and that [JSON.parse] refuses; [processTaxPDF] then rejects
    with that parse error.  More generally, when the wrapped request ends
    with a response and [processTaxPDF] nevertheless rejects, the response
    text is a non-empty string, and the rejection is either the parse
    error of that text or the type error thrown on a value that is not
    the declared array.  Parsing comes after the retry wrapper: the world
    left by [processTaxPDF] is the one left by [withRetry]; in particular
    a response that arrives at the first request is parsed after that
    single request and no timer, whatever its body. *)
Theorem processTaxPDF_empty_text_and_parse_failure
    (fileBase64 mimeType : string) (w : World) :
  JSON_parse "[]" = ParsedArray [] ->
  let wrapped := withRetry (request fileBase64 mimeType) default_maxRetries in
  (forall response w',
     wrapped w = (Resolved response, w') ->
     text response = None \/ text response = Some EmptyString ->
     processTaxPDF fileBase64 mimeType w = (Resolved [], w'))
  /\ (forall response w' syntaxError,
        wrapped w = (Resolved response, w') ->
        JSON_parse (text_or_empty_array response) = ParseError syntaxError ->
        processTaxPDF fileBase64 mimeType w = (Rejected syntaxError, w')
        /\ exists s, text response = Some s /\ s <> EmptyString
                     /\ JSON_parse s = ParseError syntaxError)
  /\ (forall response w' e w'',
        wrapped w = (Resolved response, w') ->
        processTaxPDF fileBase64 mimeType w = (Rejected e, w'') ->
        w'' = w' /\
        exists s, text response = Some s /\ s <> EmptyString
                  /\ (JSON_parse s = ParseError e
                      \/ JSON_parse s = ParsedOther e))
  /\ snd (processTaxPDF fileBase64 mimeType w) = snd (wrapped w)
  /\ (forall response,
        generateContent (requests w) fileBase64 mimeType = Resolved response ->
        snd (processTaxPDF fileBase64 mimeType w) =
        {| requests := S (requests w); sleeps := sleeps w |}).
Proof using.
  intros Hempty wrapped.
  assert (snd (processTaxPDF fileBase64 mimeType w) = snd (wrapped w)) as Hsnd.
  { rewrite processTaxPDF_unfold. fold wrapped.
    destruct (wrapped w) as [[resp|e] w1]; [|reflexivity].
    now destruct (JSON_parse (text_or_empty_array resp)). }
  assert (forall response,
            JSON_parse (text_or_empty_array response) <> ParsedArray [] ->
            exists s, text response = Some s /\ s <> EmptyString
                      /\ text_or_empty_array response = s) as Htext.
  { intros response Hp. apply text_or_empty_array_truthy.
    intros Heq. apply Hp. now rewrite Heq. }
  split; [|split; [|split; [|split]]].
  - intros response w' Hrun Hfalsy.
    rewrite processTaxPDF_unfold. fold wrapped. rewrite Hrun.
    rewrite text_or_empty_array_falsy, Hempty by exact Hfalsy. reflexivity.
  - intros response w' syntaxError Hrun Hp. split.
    + rewrite processTaxPDF_unfold. fold wrapped. now rewrite Hrun, Hp.
    + destruct (Htext response) as (s & Hs & Hne & Heq);
        [rewrite Hp; discriminate|].
      exists s. rewrite Heq in Hp. auto.
  - intros response w' e w'' Hrun.
    rewrite processTaxPDF_unfold. fold wrapped. rewrite Hrun.
    destruct (JSON_parse (text_or_empty_array response))
      as [e'|raw|e'] eqn:Hp; [|discriminate|];
      intros [= <- <-]; (split; [reflexivity|]);
      (destruct (Htext response) as (s & Hs & Hne & Heq);
         [rewrite Hp; discriminate|]);
      exists s; rewrite Heq in Hp; auto.
  - exact Hsnd.
  - intros response Hresp. rewrite Hsnd. subst wrapped.
    now rewrite (request_resolved _ _ _ _ Hresp).
Qed.

(** ** The upload handler *)

Lemma rethrow_procErr_eq {A} (procErr : Error) (w : World) :
  @rethrow_procErr A procErr w = (Rejected (rethrown procErr), w).
Proof using.
  unfold rethrow_procErr, rethrown.
  destruct (message procErr) as [m|]; [|reflexivity].
  now destruct (includes m "429").
Qed.

(** The classification of the outer [catch], in terms of the error that
    the extraction threw. *)
Lemma is_quota_error_rethrown (procErr : Error) :
  is_quota_error (rethrown procErr) =
  mentions_429 procErr || is_quota_marker procErr.
Proof using.
  unfold rethrown, mentions_429, is_quota_marker.
  destruct (message procErr) as [m|] eqn:Hm; [|reflexivity].
  destruct (includes m "429") eqn:Hi; [reflexivity|].
  unfold is_quota_error. rewrite Hm, Hi.
  now rewrite orb_false_r.
Qed.

Lemma extractions_rejected_last (fileList : list File) :
  forall (i : Z) (w : World) (e : Error),
  In (Rejected e) (fst (extractions fileList i w)) ->
  exists oks,
    fst (extractions fileList i w) = map Resolved oks ++ [Rejected e].
Proof using.
  induction fileList as [|file rest IH]; intros i w e; cbn [extractions].
  - intros [].
  - destruct (processTaxPDF _ _ _) as [[result|e'] w2].
    + destruct (extractions rest (i + 1) w2) as [outs w3] eqn:Hrest.
      cbn [fst]. intros [H|H]; [discriminate|].
      destruct (IH (i + 1) w2 e) as [oks Hoks]; [now rewrite Hrest|].
      rewrite Hrest in Hoks. cbn [fst] in Hoks.
      exists (result :: oks). now rewrite Hoks.
    + cbn [fst]. intros [[= ->]|[]]. now exists [].
Qed.

Lemma extractions_all_resolved (fileList : list File) :
  forall (i : Z) (w : World),
  (forall o, In o (fst (extractions fileList i w)) ->
             exists result, o = Resolved result) ->
  List.length (fst (extractions fileList i w)) = List.length fileList.
Proof using.
  induction fileList as [|file rest IH]; intros i w; cbn [extractions].
  - reflexivity.
  - destruct (processTaxPDF _ _ _) as [[result|e'] w2].
    + specialize (IH (i + 1) w2).
      destruct (extractions rest (i + 1) w2) as [outs w3].
      cbn [fst List.length] in *. intros H. f_equal. apply IH.
      intros o Ho. apply H. now right.
    + cbn [fst]. intros H.
      destruct (H (Rejected e') (or_introl eq_refl)) as [result Hr].
      discriminate.
Qed.

(** The upload loop against the extractions it performs. *)
Lemma upload_loop_extractions (fileList : list File) :
  forall (i : Z) (newRecords : list TaxRecord) (w : World),
  let (outs, w') := extractions fileList i w in
  upload_loop fileList i newRecords w =
  match last outs (Resolved []) with
  | Rejected e => (Rejected (rethrown e), w')
  | Resolved _ => (Resolved (newRecords ++ extracted_records outs), w')
  end.
Proof using.
  induction fileList as [|file rest IH]; intros i newRecords w;
    cbn [extractions upload_loop].
  - cbn. now rewrite app_nil_r.
  - unfold bind at 1.
    assert ((if i >? 0 then sleep 1500 else ret tt) w
            = (Resolved tt, if i >? 0 then snd (sleep 1500 w) else w)) as ->
      by now destruct (i >? 0).
    unfold bind at 1, try_catch at 1.
    destruct (processTaxPDF _ _ _) as [[result|e] w2].
    + specialize (IH (i + 1) (newRecords ++ result) w2).
      destruct (extractions rest (i + 1) w2) as [outs w3].
      rewrite IH. destruct outs as [|o outs].
      * cbn. now rewrite !app_nil_r.
      * change (last (Resolved result :: o :: outs) (Resolved []))
          with (last (o :: outs) (Resolved [])).
        destruct (last (o :: outs) (Resolved [])); [|reflexivity].
        rewrite <- app_assoc. reflexivity.
    + rewrite rethrow_procErr_eq. reflexivity.
Qed.

Lemma last_all_resolved {A} (outs : list (outcome A)) (d : A) :
  (forall o, In o outs -> exists result, o = Resolved result) ->
  exists result, last outs (Resolved d) = Resolved result.
Proof using.
  induction outs as [|o outs IH]; intros H.
  - now exists d.
  - destruct outs as [|o' outs].
    + apply H. now left.
    + apply IH. intros x Hx. apply H. now right.
Qed.

(** The state [handleFileUpload] leaves, by the extractions of the batch. *)
Lemma handleFileUpload_state (file : File) (rest : list File)
    (st : AppState) (w : World) :
  let outs := fst (extractions (file :: rest) 0 w) in
  fst (handleFileUpload (Some (file :: rest)) st w) =
  match last outs (Resolved []) with
  | Rejected e =>
      {| records := records st;
         isLoading := false;
         error := Some (if mentions_429 e || is_quota_marker e
                        then QUOTA_MESSAGE else FAILURE_MESSAGE) |}
  | Resolved _ =>
      {| records := records st ++ extracted_records outs;
         isLoading := false;
         error := None |}
  end.
Proof using.
  intros outs. subst outs. unfold handleFileUpload.
  pose proof (upload_loop_extractions (file :: rest) 0 [] w) as H.
  destruct (extractions (file :: rest) 0 w) as [outs w']. cbn [fst].
  rewrite H. destruct (last outs (Resolved [])) as [r|e]; cbn [fst].
  - reflexivity.
  - now rewrite is_quota_error_rethrown.
Qed.

(** C5. A batch is all or nothing for the record list.  If one of the
    extractions of the batch is rejected, the record list after
    [handleFileUpload] is the one before it, even though earlier files of
    the batch were extracted.  If every extraction of the batch resolves,
    every file was extracted and the records of all of them are appended,
    in order, to the list.  An upload without files changes nothing. *)
Theorem handleFileUpload_all_or_nothing
    (fileList : list File) (st : AppState) (w : World) :
  let outs := fst (extractions fileList 0 w) in
  let st' := fst (handleFileUpload (Some fileList) st w) in
  ((exists e, In (Rejected e) outs) -> records st' = records st)
  /\ ((forall o, In o outs -> exists result, o = Resolved result) ->
      List.length outs = List.length fileList
      /\ records st' = records st ++ extracted_records outs)
  /\ fst (handleFileUpload None st w) = st
  /\ fst (handleFileUpload (Some []) st w) = st.
Proof using.
  intros outs st'. split; [|split; [|split; reflexivity]].
  - intros [e He]. subst st' outs.
    destruct fileList as [|file rest]; [destruct He|].
    rewrite handleFileUpload_state.
    destruct (extractions_rejected_last _ _ _ _ He) as [oks ->].
    now rewrite last_last.
  - intros Hall. split; [now apply extractions_all_resolved|].
    subst st' outs. destruct fileList as [|file rest].
    + cbn. now rewrite app_nil_r.
    + rewrite handleFileUpload_state.
      destruct (last_all_resolved _ [] Hall) as [result ->]. reflexivity.
Qed.

(** C9, as amended.  When an extraction of the batch is rejected with the
    error [e], exactly one message is shown: the quota message if the
    message of [e] contains 429 or is the marker QUOTA_EXCEEDED itself, and
    the generic failure message in every other case, an error without a
    message included.  The two messages differ, and the record list is
    left as it was. *)
Theorem handleFileUpload_error_message
    (fileList : list File) (st : AppState) (w : World) (e : Error) :
  In (Rejected e) (fst (extractions fileList 0 w)) ->
  let st' := fst (handleFileUpload (Some fileList) st w) in
  error st' = Some (if mentions_429 e || is_quota_marker e
                    then QUOTA_MESSAGE else FAILURE_MESSAGE)
  /\ String.eqb QUOTA_MESSAGE FAILURE_MESSAGE = false
  /\ records st' = records st.
Proof using.
  intros He st'. subst st'.
  destruct fileList as [|file rest]; [destruct He|].
  rewrite handleFileUpload_state.
  destruct (extractions_rejected_last _ _ _ _ He) as [oks ->].
  rewrite last_last. repeat split.
Qed.

(** ** Duplicate detection *)

Lemma Set_has_In (s : list string) (x : string) :
  Set_has s x = true <-> In x s.
Proof using.
  unfold Set_has. rewrite existsb_exists. split.
  - intros (y & Hy & E). apply String.eqb_eq in E. now subst.
  - intros H. exists x. split; [exact H | apply String.eqb_refl].
Qed.

Lemma indexOf_in (xs : list string) (x : string) :
  In x xs -> 0 <= indexOf xs x < Z.of_nat (List.length xs).
Proof using.
  induction xs as [|y xs IH]; [intros []|].
  intros H. cbn [indexOf List.length]. destruct (String.eqb y x) eqn:E.
  - lia.
  - apply String.eqb_neq in E. destruct H as [H|H]; [congruence|].
    specialize (IH H). cbv zeta.
    destruct (indexOf xs x =? -1) eqn:E1; [apply Z.eqb_eq in E1|]; lia.
Qed.

Lemma indexOf_app_in (xs ys : list string) (x : string) :
  In x xs -> indexOf (xs ++ ys) x = indexOf xs x.
Proof using.
  induction xs as [|y xs IH]; [intros []|].
  intros H. cbn [indexOf app]. destruct (String.eqb y x) eqn:E; [reflexivity|].
  apply String.eqb_neq in E. destruct H as [H|H]; [congruence|].
  now rewrite IH.
Qed.

Lemma indexOf_app_first (xs ys : list string) (x : string) :
  ~ In x xs -> indexOf (xs ++ x :: ys) x = Z.of_nat (List.length xs).
Proof using.
  induction xs as [|y xs IH]; intros H.
  - cbn. now rewrite String.eqb_refl.
  - cbn [indexOf app List.length]. destruct (String.eqb y x) eqn:E.
    + apply String.eqb_eq in E. subst. exfalso. apply H. now left.
    + rewrite IH by (intros Hx; apply H; now right). cbv zeta.
      destruct (Z.of_nat (List.length xs) =? -1) eqn:E1;
        [apply Z.eqb_eq in E1|]; lia.
Qed.

(** The filter of [generateSummary] keeps the repeats. *)
Lemma filter_from_repeats (later : list string) : forall seen : list string,
  filter_from (fun nop index => negb (indexOf (seen ++ later) nop =? index))
              (Z.of_nat (List.length seen)) later =
  repeats seen later.
Proof using.
  induction later as [|x rest IH]; intros seen; [reflexivity|].
  cbn [filter_from repeats].
  specialize (IH (seen ++ [x])).
  rewrite <- app_assoc, length_app in IH. cbn [app List.length] in IH.
  replace (Z.of_nat (List.length seen + 1))
    with (Z.of_nat (List.length seen) + 1) in IH by lia.
  rewrite IH.
  destruct (Set_has seen x) eqn:Hs.
  - apply Set_has_In in Hs.
    rewrite indexOf_app_in by exact Hs.
    pose proof (indexOf_in seen x Hs) as Hb.
    replace (indexOf seen x =? Z.of_nat (List.length seen)) with false
      by (symmetry; apply Z.eqb_neq; lia).
    reflexivity.
  - assert (~ In x seen) as Hn
      by (intros Hx; apply Set_has_In in Hx; congruence).
    rewrite indexOf_app_first by exact Hn.
    now rewrite Z.eqb_refl.
Qed.

Lemma repeats_In (later : list string) (x : string) : forall seen : list string,
  In x (repeats seen later) <->
  In x later /\ (In x seen \/ (2 <= occurrences later x)%nat).
Proof using.
  unfold occurrences.
  induction later as [|y rest IH]; intros seen; cbn [repeats].
  - simpl. propositional.
  - assert (In x (repeats (seen ++ [y]) rest) <->
            In x rest /\ (In x seen \/ y = x \/ (2 <= count_occ string_dec rest x)%nat))
      as IH'.
    { rewrite IH, in_app_iff. simpl. propositional. }
    clear IH.
    pose proof (count_occ_In string_dec rest x) as Hc.
    destruct (string_dec y x) as [->|Hyx].
    + rewrite count_occ_cons_eq by reflexivity.
      destruct (Set_has seen x) eqn:Hs.
      * apply Set_has_In in Hs. simpl. propositional.
      * assert (~ In x seen) as Hn
          by (intros Hx; apply Set_has_In in Hx; congruence).
        rewrite IH'. simpl. split.
        -- intros [Hr _]. split; [now right|]. right. apply Hc in Hr. lia.
        -- intros [_ [Hx|Hx]]; [contradiction|].
           assert (In x rest) by (apply Hc; lia). propositional.
    + rewrite count_occ_cons_neq by exact Hyx.
      destruct (Set_has seen y) eqn:Hs; simpl; rewrite IH'; propositional.
Qed.

Lemma Array_from_Set_acc (xs : list string) : forall acc : list string,
  NoDup acc ->
  NoDup (fold_left Set_add xs acc)
  /\ forall x, In x (fold_left Set_add xs acc) <-> In x acc \/ In x xs.
Proof using.
  induction xs as [|y xs IH]; intros acc Hnd; cbn [fold_left].
  - split; [exact Hnd|]. intros x. simpl. propositional.
  - unfold Set_add at 2 4. destruct (Set_has acc y) eqn:Hs.
    + apply Set_has_In in Hs. destruct (IH acc Hnd) as [H1 H2].
      split; [exact H1|]. intros x. rewrite H2. simpl.
      split; [propositional|]. intros [H|[<-|H]]; propositional.
    + assert (~ In y acc) as Hn
        by (intros Hy; apply Set_has_In in Hy; congruence).
      assert (NoDup (acc ++ [y])) as Hnd'.
      { apply NoDup_app; [exact Hnd | repeat constructor; intros [] |].
        intros z Hz [<-|[]]. contradiction. }
      destruct (IH (acc ++ [y]) Hnd') as [H1 H2].
      split; [exact H1|]. intros x. rewrite H2, in_app_iff. simpl. propositional.
Qed.

(** C6. The duplicates that [generateSummary] reports are the object
    identifiers that occur at least twice among the records: each of them
    is reported once, however often it repeats, and an identifier that
    occurs once is not reported.  For the identifiers A, B, A, C, A the
    report is the single identifier A. *)
Theorem generateSummary_duplicates (records : list TaxRecord) :
  let nops := map nop records in
  let dups := duplicates (generateSummary records) in
  NoDup dups
  /\ (forall x, In x dups <-> (2 <= occurrences nops x)%nat)
  /\ (forall x, occurrences nops x = 1%nat -> ~ In x dups)
  /\ (nops = ["A"; "B"; "A"; "C"; "A"] -> dups = ["A"]).
Proof using.
  intros nops dups.
  assert (dups = Array_from_Set (repeats [] nops)) as Hd.
  { subst dups nops. cbn [generateSummary duplicates].
    unfold filter_indexed.
    now rewrite <- (filter_from_repeats (map nop records) []). }
  destruct (Array_from_Set_acc (repeats [] nops) [] (NoDup_nil _)) as [H1 H2].
  fold (Array_from_Set (repeats [] nops)) in H1, H2. rewrite <- Hd in H1, H2.
  assert (forall x, In x dups <-> (2 <= occurrences nops x)%nat) as Hiff.
  { intros x. rewrite H2, repeats_In. simpl.
    pose proof (count_occ_In string_dec nops x) as Hc. unfold occurrences.
    split; [propositional|]. intros H. right. split; [apply Hc; lia | propositional]. }
  split; [exact H1|]. split; [exact Hiff|]. split.
  - intros x Hx Hin. apply Hiff in Hin. lia.
  - intros Hn. rewrite Hd, Hn. reflexivity.
Qed.

(** ** Anomaly detection *)



Lemma anomalies_loop (records : list TaxRecord) : forall acc : list string,
  fold_left (fun anomalies r =>
               if total_mismatch r then anomalies ++ [anomaly_message r]
               else anomalies)
            records acc =
  acc ++ map anomaly_message (filter total_mismatch records).
Proof using.
  induction records as [|r records IH]; intros acc; cbn [fold_left filter].
  - now rewrite app_nil_r.
  - rewrite IH. destruct (total_mismatch r); [|reflexivity].
    now rewrite <- app_assoc.
Qed.


(** ** CSV export *)

Lemma string_app_assoc (a b c : string) :
  ((a ++ b) ++ c = a ++ b ++ c)%string.
Proof using. induction a as [|x a IH]; simpl; [reflexivity | now rewrite IH]. Qed.

Lemma string_app_nil_r (a : string) : (a ++ EmptyString)%string = a.
Proof using. induction a as [|x a IH]; simpl; [reflexivity | now rewrite IH]. Qed.

Lemma join_cons (sep p : string) (rest : list string) :
  join sep (p :: rest) = (p ++ each_prefixed sep rest)%string.
Proof using.
  revert p. induction rest as [|q rest IH]; intros p.
  - cbn. now rewrite string_app_nil_r.
  - change (join sep (p :: q :: rest))
      with (p ++ sep ++ join sep (q :: rest))%string.
    now rewrite IH.
Qed.

Lemma each_prefixed_app (sep : string) (l1 l2 : list string) :
  each_prefixed sep (l1 ++ l2) =
  (each_prefixed sep l1 ++ each_prefixed sep l2)%string.
Proof using.
  induction l1 as [|p l1 IH]; cbn [each_prefixed app]; [reflexivity|].
  now rewrite IH, !string_app_assoc.
Qed.

Lemma Cell_toString_year_cell (record : TaxRecord) (y : Z) :
  Cell_toString (year_cell record y) = csv_cell record y.
Proof using.
  unfold year_cell, csv_cell.
  now destruct (obj_get (arrears record) y) as [[amount|]|].
Qed.

Lemma row_eq (record : TaxRecord) :
  join_cells "," (rowData record) = csv_row record.
Proof using.
  unfold join_cells, rowData, csv_row.
  cbn [map app]. rewrite join_cons. cbn [each_prefixed].
  rewrite map_app, each_prefixed_app, map_map.
  rewrite (map_ext _ _ (Cell_toString_year_cell record)).
  cbn [map each_prefixed Cell_toString].
  rewrite !string_app_assoc. cbn [append].
  now rewrite string_app_nil_r.
Qed.

(** C8. When there are records, the exported text is the byte-order mark,
    the header line made of Nama, NOP, one column per configured year and
    Total, and then one line per record, each started by a newline.  The
    line of a record is its name between double quotes, its identifier
    after an apostrophe, for every configured year the amount of that year
    (nothing when the entry is the null marker), and the stored total, all
    joined by commas.  With the configured years 2020 and 2021 and 500
    printed as the digits 500, the record of Budi, identifier 123, total
    500, with the null marker for 2020 and 500 for 2021, gives the line
    that reads: quoted Budi, apostrophe 123, an empty column, 500, 500.
    Without records nothing is exported. *)
Theorem exportToCSV_format (record : TaxRecord) (rest : list TaxRecord) :
  exportToCSV (record :: rest) =
    Some (BOM ++ csv_header
          ++ each_prefixed newline (map csv_row (record :: rest)))%string
  /\ (forall r y,
        csv_cell r y =
        match obj_get (arrears r) y with
        | Some (Some amount) => Number_toString amount
        | _ => EmptyString
        end)
  /\ map (fun r => join_cells "," (rowData r)) (record :: rest)
     = map csv_row (record :: rest)
  /\ exportToCSV [] = None
  /\ (YEARS = [2020; 2021] ->
      Number_toString 500%float = "500" ->
      nama record = "Budi" -> nop record = "123" ->
      total record = 500%float ->
      obj_get (arrears record) 2020 = Some None ->
      obj_get (arrears record) 2021 = Some (Some 500%float) ->
      join_cells "," (rowData record) =
      (dquote ++ "Budi" ++ dquote ++ ",'123,,500,500")%string).
Proof using.
  split; [|split; [|split; [|split]]].
  - unfold exportToCSV. f_equal. f_equal.
    rewrite join_cons. f_equal.
    + unfold headers, csv_header. cbn [app]. rewrite join_cons.
      cbn [each_prefixed]. rewrite each_prefixed_app. cbn [each_prefixed].
      reflexivity.
    + f_equal. apply map_ext. intros r. apply row_eq.
  - intros r y. unfold csv_cell.
    now destruct (obj_get (arrears r) y) as [[amount|]|].
  - apply map_ext. intros r. apply row_eq.
  - reflexivity.
  - intros HY H500 Hnama Hnop Htotal H2020 H2021.
    rewrite row_eq. unfold csv_row, csv_cell.
    rewrite HY. cbn [map each_prefixed].
    now rewrite Hnama, Hnop, Htotal, H2020, H2021, H500.
Qed.

(** ** Further properties of the retry wrapper *)

Section RetryRuns.

Context {T : Type}.
Variable script : nat -> outcome T.
Variable maxRetries : Z.

(** Retryable failures at the first [k] indices bring the loop to index
    [a + k], after [k] calls and the [k] first delays. *)
Lemma withRetry_loop_skip (k : nat) : forall (a n : nat) (delay : Z) (w : World),
  Z.of_nat (a + n) = maxRetries ->
  (k < n)%nat ->
  (forall j, (j < k)%nat ->
     exists e, script (requests w + j)%nat = Rejected e /\ isRetryable e = true) ->
  exists delay',
    withRetry_loop (invoke script) maxRetries (map Z.of_nat (seq a n)) delay w =
    withRetry_loop (invoke script) maxRetries
      (map Z.of_nat (seq (a + k) (n - k))) delay'
      {| requests := (requests w + k)%nat;
         sleeps := sleeps w ++ backoff delay k |}.
Proof using.
  induction k as [|k IH]; intros a n delay w Ha Hk Hfail.
  - exists delay. cbn [backoff]. rewrite app_nil_r, !Nat.add_0_r, Nat.sub_0_r.
    now destruct w.
  - destruct n as [|n]; [lia|].
    destruct (Hfail 0%nat ltac:(lia)) as (e0 & He0 & Hr0).
    rewrite Nat.add_0_r in He0. cbn [seq map].
    rewrite (withRetry_loop_retry _ _ _ _ _ _ e0) by (assumption || lia).
    destruct (IH (S a) n (delay * 2)
                {| requests := S (requests w); sleeps := sleeps w ++ [delay] |})
      as [delay' Hrun].
    + lia.
    + lia.
    + intros j Hj. destruct (Hfail (S j) ltac:(lia)) as (e & He & Hr).
      exists e. split; [|exact Hr]. cbn [requests].
      replace (S (requests w) + j)%nat with (requests w + S j)%nat by lia.
      exact He.
    + exists delay'. rewrite Hrun. cbn [requests sleeps backoff].
      rewrite <- app_assoc. cbn [app].
      replace (S a + k)%nat with (a + S k)%nat by lia.
      replace (S (requests w) + k)%nat with (requests w + S k)%nat by lia.
      reflexivity.
Qed.

(** Every run of the loop over at least one index ends with a call: its
    outcome is the outcome of that call, and the delays awaited are the
    first delays of the back-off, one fewer than the calls. *)
Lemma withRetry_loop_run (n : nat) : forall (a : nat) (delay : Z) (w : World),
  Z.of_nat (a + n) = maxRetries ->
  (1 <= n)%nat ->
  exists k,
    (k < n)%nat /\
    withRetry_loop (invoke script) maxRetries (map Z.of_nat (seq a n)) delay w =
    (script (requests w + k)%nat,
     {| requests := (requests w + S k)%nat;
        sleeps := sleeps w ++ backoff delay k |}).
Proof using.
  induction n as [|n IH]; intros a delay w Ha Hn; [lia|].
  cbn [seq map].
  destruct (script (requests w)) as [v|err] eqn:Hs.
  - exists 0%nat. split; [lia|].
    rewrite (withRetry_loop_resolved _ _ _ _ _ _ v) by exact Hs.
    cbn [backoff]. rewrite app_nil_r, Nat.add_0_r, Hs.
    now replace (requests w + 1)%nat with (S (requests w)) by lia.
  - destruct (isRetryable err) eqn:Hr.
    + destruct n as [|n].
      * exists 0%nat. split; [lia|].
        rewrite (withRetry_loop_last _ _ _ _ _ _ err) by (assumption || lia).
        cbn [backoff]. rewrite app_nil_r, Nat.add_0_r, Hs.
        now replace (requests w + 1)%nat with (S (requests w)) by lia.
      * rewrite (withRetry_loop_retry _ _ _ _ _ _ err) by (assumption || lia).
        destruct (IH (S a) (delay * 2)
                    {| requests := S (requests w);
                       sleeps := sleeps w ++ [delay] |})
          as (k & Hk & Hrun); [lia | lia |].
        exists (S k). split; [lia|]. rewrite Hrun.
        cbn [requests sleeps backoff]. rewrite <- app_assoc. cbn [app].
        replace (S (requests w) + k)%nat with (requests w + S k)%nat by lia.
        replace (S (requests w) + S k)%nat
          with (requests w + S (S k))%nat by lia.
        reflexivity.
    + exists 0%nat. split; [lia|].
      rewrite (withRetry_loop_not_retryable _ _ _ _ _ _ err)
        by assumption.
      cbn [backoff]. rewrite app_nil_r, Nat.add_0_r, Hs.
      now replace (requests w + 1)%nat with (S (requests w)) by lia.
Qed.

End RetryRuns.

Lemma total_wait_backoff (count : nat) : forall delay : Z,
  total_wait (backoff delay count) = delay * (2 ^ Z.of_nat count - 1).
Proof using.
  induction count as [|count IH]; intros delay.
  - cbn. lia.
  - cbn [backoff total_wait fold_right]. fold (total_wait (backoff (delay * 2) count)).
    rewrite IH, Nat2Z.inj_succ, Z.pow_succ_r by lia. lia.
Qed.

(** X1. Without a positive number of attempts, [withRetry] never calls the
    function: it rejects with its own error, Max retries exceeded, and
    leaves the world as it was. *)
Theorem withRetry_without_attempts
    (T : Type) (fn : Async T) (maxRetries : Z) (w : World) :
  maxRetries <= 0 ->
  withRetry fn maxRetries w =
  (Rejected (new_Error "Max retries exceeded"), w).
Proof using.
  intros H. unfold withRetry. now rewrite for_range_nil by lia.
Qed.

(** X2. When the first [k] calls fail with retryable errors and call
    number [k] succeeds, [k] being within the attempts allowed,
    [withRetry] resolves with the result of that call after [k + 1] calls
    and the delays 2000, 4000, ..., [k] of them. *)
Theorem withRetry_success_after_retries
    (T : Type) (script : nat -> outcome T) (maxRetries : Z) (w : World)
    (k : nat) (v : T) :
  Z.of_nat k < maxRetries ->
  (forall j, (j < k)%nat ->
     exists e, script (requests w + j)%nat = Rejected e /\ isRetryable e = true) ->
  script (requests w + k)%nat = Resolved v ->
  withRetry (invoke script) maxRetries w =
  (Resolved v, {| requests := (requests w + S k)%nat;
                  sleeps := sleeps w ++ backoff 2000 k |}).
Proof using.
  intros Hk Hfail Hv. unfold withRetry. rewrite for_range_from_zero.
  destruct (withRetry_loop_skip script maxRetries k 0 (Z.to_nat maxRetries)
              2000 w) as [delay' ->]; [lia | lia | exact Hfail |].
  destruct (Z.to_nat maxRetries - k)%nat as [|m] eqn:Hm; [lia|].
  cbn [seq map].
  rewrite (withRetry_loop_resolved _ _ _ _ _ _ v) by exact Hv.
  cbn [requests sleeps].
  now replace (requests w + S k)%nat with (S (requests w + k)) by lia.
Qed.

(** X3. When the first [k] calls fail with retryable errors and call
    number [k], within the attempts allowed, fails with an error that is
    not retryable, [withRetry] rejects with that error at once: [k + 1]
    calls were made and no delay follows the last one. *)
Theorem withRetry_stops_at_non_retryable
    (T : Type) (script : nat -> outcome T) (maxRetries : Z) (w : World)
    (k : nat) (err : Error) :
  Z.of_nat k < maxRetries ->
  (forall j, (j < k)%nat ->
     exists e, script (requests w + j)%nat = Rejected e /\ isRetryable e = true) ->
  script (requests w + k)%nat = Rejected err ->
  isRetryable err = false ->
  withRetry (invoke script) maxRetries w =
  (Rejected err, {| requests := (requests w + S k)%nat;
                    sleeps := sleeps w ++ backoff 2000 k |}).
Proof using.
  intros Hk Hfail He Hr. unfold withRetry. rewrite for_range_from_zero.
  destruct (withRetry_loop_skip script maxRetries k 0 (Z.to_nat maxRetries)
              2000 w) as [delay' ->]; [lia | lia | exact Hfail |].
  destruct (Z.to_nat maxRetries - k)%nat as [|m] eqn:Hm; [lia|].
  cbn [seq map].
  rewrite (withRetry_loop_not_retryable _ _ _ _ _ _ err) by assumption.
  cbn [requests sleeps].
  now replace (requests w + S k)%nat with (S (requests w + k)) by lia.
Qed.

(** X4. With at least one attempt allowed, what [withRetry] returns is
    always the outcome of the last call it made: it makes between one and
    [maxRetries] calls, and the error Max retries exceeded of its last
    line is never produced by the wrapper itself. *)
Theorem withRetry_outcome_is_last_call
    (T : Type) (script : nat -> outcome T) (maxRetries : Z) (w : World) :
  1 <= maxRetries ->
  exists k,
    Z.of_nat k < maxRetries /\
    withRetry (invoke script) maxRetries w =
    (script (requests w + k)%nat,
     {| requests := (requests w + S k)%nat;
        sleeps := sleeps w ++ backoff 2000 k |}).
Proof using.
  intros Hmax. unfold withRetry. rewrite for_range_from_zero.
  destruct (withRetry_loop_run script maxRetries (Z.to_nat maxRetries) 0 2000 w)
    as (k & Hk & Hrun); [lia | lia |].
  exists k. split; [lia | exact Hrun].
Qed.

(** X5. Whatever the function does, the delays [withRetry] adds to the
    world sum up to at most 2000 * (2 ^ (maxRetries - 1) - 1) ms; with
    the default of three attempts, at most 6000 ms. *)
Theorem withRetry_total_wait_bound
    (T : Type) (script : nat -> outcome T) (maxRetries : Z) (w : World) :
  1 <= maxRetries ->
  exists waited,
    sleeps (snd (withRetry (invoke script) maxRetries w)) = sleeps w ++ waited
    /\ 0 <= total_wait waited <= 2000 * (2 ^ (maxRetries - 1) - 1)
    /\ (maxRetries = default_maxRetries -> total_wait waited <= 6000).
Proof using.
  intros Hmax. unfold withRetry. rewrite for_range_from_zero.
  destruct (withRetry_loop_run script maxRetries (Z.to_nat maxRetries) 0 2000 w)
    as (k & Hk & Hrun); [lia | lia |].
  exists (backoff 2000 k). rewrite Hrun. cbn [snd sleeps].
  split; [reflexivity|]. rewrite total_wait_backoff.
  assert (1 <= 2 ^ Z.of_nat k <= 2 ^ (maxRetries - 1)) as Hpow.
  { split; [apply (Z.pow_le_mono_r 2 0); lia |].
    apply Z.pow_le_mono_r; lia. }
  split; [lia|]. intros ->. unfold default_maxRetries in Hpow.
  change (2 ^ (3 - 1)) with 4 in Hpow. lia.
Qed.

(** ** Further properties of the totals *)

Lemma Prim2SF_zero : Prim2SF 0%float = S754_zero false.
Proof using. reflexivity. Qed.

Lemma binary_round_sign (m : positive) (e : Z) :
  not_negative (binary_round prec emax false m e).
Proof using.
  unfold binary_round.
  destruct (shl_align m e _) as [mz ez].
  unfold binary_round_aux.
  destruct (shr_fexp prec emax (Z.pos mz) ez loc_Exact) as [mrs' e'].
  destruct (shr_fexp prec emax _ e' loc_Exact) as [mrs'' e''].
  destruct (shr_m mrs''); [reflexivity| |exact I].
  destruct (e'' <=? emax - prec)%Z; reflexivity.
Qed.

(** What [0 < p] says of [p]. *)
Lemma ltb_zero_positive (p : float) :
  PrimFloat.ltb 0 p = true ->
  match Prim2SF p with
  | S754_infinity s | S754_finite s _ _ => s = false
  | _ => False
  end.
Proof using.
  rewrite ltb_spec, Prim2SF_zero. unfold SFltb, SFcompare.
  destruct (Prim2SF p) as [s|s| |s m e]; try discriminate;
    destruct s; (discriminate || reflexivity).
Qed.

Lemma add_positive_not_negative (s p : float) :
  not_negative (Prim2SF s) -> PrimFloat.ltb 0 p = true ->
  not_negative (Prim2SF (s + p)).
Proof using.
  intros Hs Hp. apply ltb_zero_positive in Hp.
  rewrite add_spec. unfold SF64add, SFadd.
  destruct (Prim2SF s) as [ss|ss| |ss ms es],
           (Prim2SF p) as [sp|sp| |sp mp ep];
    cbn [not_negative] in *; subst;
    try contradiction; try reflexivity; try exact I.
  cbv zeta. unfold cond_Zopp.
  change (Z.pos ?a + Z.pos ?b)%Z with (Z.pos (a + b)).
  unfold binary_normalize. apply binary_round_sign.
Qed.

(** Adding the zero of [positive_or_zero] changes nothing. *)
Lemma add_zero_r (s : float) :
  not_negative (Prim2SF s) -> (s + 0)%float = s.
Proof using.
  intros Hs. apply Prim2SF_inj. rewrite add_spec, Prim2SF_zero.
  unfold SF64add, SFadd.
  destruct (Prim2SF s) as [ss|ss| |ss ms es];
    cbn [not_negative] in *; subst; reflexivity.
Qed.

Lemma not_negative_not_below_zero (s : float) :
  not_negative (Prim2SF s) -> PrimFloat.ltb s 0 = false.
Proof using.
  intros Hs. rewrite ltb_spec, Prim2SF_zero. unfold SFltb, SFcompare.
  destruct (Prim2SF s) as [ss|ss| |ss ms es];
    cbn [not_negative] in *; subst; reflexivity.
Qed.

(** The reduction of [sum_positive] from a running sum without a minus
    sign: only the strictly positive amounts matter, and the sum keeps
    being without a minus sign. *)
Lemma sum_loop_positive_amounts (vals : list (option float)) : forall s : float,
  not_negative (Prim2SF s) ->
  fold_left (fun sum val => PrimFloat.add sum (positive_or_zero val)) vals s
    = fold_left PrimFloat.add (positive_amounts vals) s
  /\ not_negative
       (Prim2SF (fold_left PrimFloat.add (positive_amounts vals) s)).
Proof using.
  induction vals as [|[x|] vals IH]; intros s Hs;
    cbn [fold_left positive_amounts positive_or_zero].
  - split; [reflexivity | exact Hs].
  - destruct (PrimFloat.ltb 0 x) eqn:Hx.
    + cbn [fold_left]. apply IH. now apply add_positive_not_negative.
    + rewrite add_zero_r by exact Hs. now apply IH.
  - rewrite add_zero_r by exact Hs. now apply IH.
Qed.

Lemma sub_self (x : float) :
  Prim2SF (x - x) = S754_zero false \/ Prim2SF (x - x) = S754_nan.
Proof using.
  rewrite sub_spec. unfold SF64sub, SFsub.
  destruct (Prim2SF x) as [s|s| |s m e].
  - left. now destruct s.
  - right. now destruct s.
  - now right.
  - left. cbv zeta. rewrite Z.sub_diag. reflexivity.
Qed.

(** The difference of a binary64 value with itself never exceeds 0.01. *)
Lemma difference_with_itself (x : float) :
  PrimFloat.ltb 0.01 (abs (x - x)) = false.
Proof using.
  rewrite ltb_spec, abs_spec.
  destruct (sub_self x) as [-> | ->]; reflexivity.
Qed.

(** X6. The sum that [processTaxPDF] stores as total, and that
    [generateSummary] recomputes, is the sum of the strictly positive
    amounts alone: the null markers and the amounts that are zero or
    negative can be left out of the year map without changing it, in
    binary64 arithmetic as well. *)
Theorem sum_positive_skips_the_rest (m : Obj (option float)) (item : RawItem) :
  sum_positive m =
    fold_left PrimFloat.add (positive_amounts (Object_values m)) 0%float
  /\ total (normalize item) =
     fold_left PrimFloat.add
       (positive_amounts
          (map (extracted_amount (item_arrears item))
               (enumeration_order START_YEAR END_YEAR)))
       0%float.
Proof using.
  assert (forall o, sum_positive o =
            fold_left PrimFloat.add (positive_amounts (Object_values o)) 0%float)
    as H.
  { intros o. unfold sum_positive.
    apply (sum_loop_positive_amounts (Object_values o) 0%float).
    rewrite Prim2SF_zero. reflexivity. }
  split; [apply H|].
  cbn [normalize total]. rewrite H.
  change (fill_arrearsMap initial_arrearsMap (item_arrears item))
    with (arrears (normalize item)).
  now rewrite normalize_Object_values.
Qed.

(** X7. The total of a record is never below zero, whatever amounts the
    answer carries, negative ones included. *)
Theorem total_never_below_zero (m : Obj (option float)) (item : RawItem) :
  PrimFloat.ltb (sum_positive m) 0 = false
  /\ PrimFloat.ltb (total (normalize item)) 0 = false.
Proof using.
  assert (forall o, PrimFloat.ltb (sum_positive o) 0 = false) as H.
  { intros o. apply not_negative_not_below_zero. unfold sum_positive.
    destruct (sum_loop_positive_amounts (Object_values o) 0%float)
      as [-> Hn]; [rewrite Prim2SF_zero; reflexivity | exact Hn]. }
  split; [apply H|]. cbn [normalize total]. apply H.
Qed.

(** X8. A record as [processTaxPDF] builds it is never a total-mismatch
    anomaly: for the records of one resolved extraction [generateSummary]
    reports no anomaly at all. *)
Theorem processTaxPDF_records_are_consistent
    (fileBase64 mimeType : string) (w w' : World) (recs : list TaxRecord) :
  processTaxPDF fileBase64 mimeType w = (Resolved recs, w') ->
  Forall (fun r => total_mismatch r = false) recs
  /\ anomalies (generateSummary recs) = [].
Proof using.
  intros H. apply processTaxPDF_resolved in H as (resp & raw & _ & _ & ->).
  assert (Forall (fun r => total_mismatch r = false) (map normalize raw)) as HF.
  { apply Forall_forall. intros r Hr.
    apply in_map_iff in Hr as (item & <- & _).
    unfold total_mismatch. cbn [normalize total arrears].
    apply difference_with_itself. }
  split; [exact HF|].
  cbn [generateSummary anomalies]. rewrite anomalies_loop. cbn [app].
  induction HF as [|r rs Hr _ IH]; [reflexivity|].
  cbn [filter]. now rewrite Hr.
Qed.

(** X9. With an empty year range, the end before the start, every item
    normalises to a record without entries and with total 0, whatever the
    answer carries. *)
Theorem normalize_empty_range (item : RawItem) :
  END_YEAR < START_YEAR ->
  arrears (normalize item) = []
  /\ total (normalize item) = 0%float.
Proof using.
  intros H.
  assert (arrears (normalize item) = []) as Ha
    by (rewrite normalize_arrears, for_range_nil by lia; reflexivity).
  split; [exact Ha|].
  cbn [normalize total]. cbn [normalize arrears] in Ha. now rewrite Ha.
Qed.

(** ** Further properties of the normalisation *)

(** When no two pairs carry the same year, the amount of a year is that of
    the pair carrying it. *)
Lemma extracted_amount_unique (arr : list Arrear) (a : Arrear) :
  NoDup (map year arr) -> In a arr ->
  extracted_amount arr (year a) = Some (kurangBayar a).
Proof using.
  induction arr as [|b arr IH]; [intros _ []|].
  cbn [map]. intros Hnd Hin. inversion Hnd as [|? ? Hb Hnd']; subst.
  rewrite extracted_amount_cons. destruct Hin as [->|Hin].
  - replace (extracted_amount arr (year a)) with (@None float).
    + now rewrite Z.eqb_refl.
    + symmetry. apply extracted_amount_None. intros c Hc Hy.
      apply Hb. rewrite <- Hy. now apply in_map.
  - now rewrite IH.
Qed.

Lemma extracted_amount_permutation (arr arr' : list Arrear) (y : Z) :
  NoDup (map year arr) -> Permutation arr arr' ->
  extracted_amount arr y = extracted_amount arr' y.
Proof using.
  intros Hnd Hp.
  assert (NoDup (map year arr')) as Hnd'
    by (eapply Permutation_NoDup; [apply Permutation_map; exact Hp | exact Hnd]).
  destruct (extracted_amount arr y) as [v|] eqn:E.
  - apply extracted_amount_Some in E as (a & Ha & <- & <-).
    symmetry. apply extracted_amount_unique; [exact Hnd'|].
    eapply Permutation_in; [exact Hp | exact Ha].
  - destruct (extracted_amount arr' y) as [v'|] eqn:E'; [|reflexivity].
    apply extracted_amount_Some in E' as (a & Ha & <- & _).
    exfalso. apply (proj1 (extracted_amount_None arr (year a)) E a);
      [|reflexivity].
    eapply Permutation_in; [apply Permutation_sym; exact Hp | exact Ha].
Qed.

(** X10. When the answer carries no year twice, the order in which it
    lists its pairs does not matter: two items with the same name and
    identifier whose pairs are a permutation of one another normalise to
    the same record. *)
Theorem normalize_order_independent (item item' : RawItem) :
  item_nama item = item_nama item' ->
  item_nop item = item_nop item' ->
  NoDup (map year (item_arrears item)) ->
  Permutation (item_arrears item) (item_arrears item') ->
  normalize item = normalize item'.
Proof using.
  intros Hnama Hnop Hnd Hp.
  assert (arrears (normalize item) = arrears (normalize item')) as Ha.
  { rewrite !normalize_arrears. apply map_ext. intros y. f_equal.
    now apply extracted_amount_permutation. }
  unfold normalize in *. cbn [arrears] in Ha.
  now rewrite Ha, Hnama, Hnop.
Qed.

(** X11. In the row that [exportToCSV] builds for a normalised record, the
    column of a configured year within the bounds is never undefined: it
    is the extracted amount of that year, or the empty text for the null
    marker.  The row has as many columns as the header. *)
Theorem rowData_of_normalize (item : RawItem) :
  (forall y, In y YEARS -> START_YEAR <= y <= END_YEAR) ->
  rowData (normalize item) =
    [CString (dquote ++ item_nama item ++ dquote)%string;
     CString ("'" ++ item_nop item)%string]
    ++ map (fun y => cell_of_amount (extracted_amount (item_arrears item) y))
           YEARS
    ++ [CNumber (total (normalize item))]
  /\ List.length (rowData (normalize item)) = List.length headers.
Proof using.
  intros HY. split.
  - unfold rowData. f_equal. f_equal. apply map_ext_in. intros y Hy.
    unfold year_cell, cell_of_amount.
    rewrite normalize_arrears, obj_get_tabulate.
    destruct (in_dec Z.eq_dec y _) as [Hin|Hout].
    + now destruct (extracted_amount (item_arrears item) y).
    + exfalso. apply Hout. apply in_for_range. specialize (HY y Hy). lia.
  - unfold rowData, headers. now rewrite !length_app, !length_map.
Qed.

(** ** Further properties of the summary *)

Lemma repeats_nil_NoDup (later : list string) : forall seen : list string,
  repeats seen later = [] <->
  NoDup later /\ forall x, In x later -> ~ In x seen.
Proof using.
  induction later as [|y rest IH]; intros seen; cbn [repeats].
  - split; [intros _; split; [constructor | intros x []] | reflexivity].
  - destruct (Set_has seen y) eqn:Hs.
    + apply Set_has_In in Hs. split; [discriminate|].
      intros [_ H]. exfalso. apply (H y); [now left | exact Hs].
    + assert (~ In y seen) as Hn
        by (intros Hy; apply Set_has_In in Hy; congruence).
      rewrite IH. split.
      * intros [Hnd H]. split.
        -- constructor; [|exact Hnd]. intros Hy.
           apply (H y Hy). apply in_or_app. right. now left.
        -- intros x [<-|Hx]; [exact Hn|]. intros Hxs.
           apply (H x Hx). apply in_or_app. now left.
      * intros [Hnd H]. inversion Hnd as [|? ? Hy Hnd']; subst.
        split; [exact Hnd'|]. intros x Hx Hxs.
        apply in_app_or in Hxs as [Hxs|[<-|[]]].
        -- apply (H x); [now right | exact Hxs].
        -- contradiction.
Qed.

Lemma Array_from_Set_nil (xs : list string) :
  Array_from_Set xs = [] <-> xs = [].
Proof using.
  split; [|intros ->; reflexivity].
  destruct xs as [|x xs]; [reflexivity|]. intros H. exfalso.
  destruct (Array_from_Set_acc (x :: xs) [] (NoDup_nil _)) as [_ Hin].
  fold (Array_from_Set (x :: xs)) in Hin.
  specialize (Hin x). rewrite H in Hin. apply (proj2 Hin). right. now left.
Qed.

(** X12. [generateSummary] reports no duplicate exactly when the object
    identifiers of the records are pairwise distinct; it counts every
    record, and every identifier it reports is the identifier of a
    record. *)
Theorem generateSummary_no_duplicates (records : list TaxRecord) :
  (duplicates (generateSummary records) = [] <-> NoDup (map nop records))
  /\ totalRecords (generateSummary records) = List.length records
  /\ (forall x, In x (duplicates (generateSummary records)) ->
                exists r, In r records /\ nop r = x).
Proof using.
  assert (duplicates (generateSummary records)
          = Array_from_Set (repeats [] (map nop records))) as Hd.
  { cbn [generateSummary duplicates]. unfold filter_indexed.
    now rewrite <- (filter_from_repeats (map nop records) []). }
  split; [|split; [reflexivity|]].
  - rewrite Hd, Array_from_Set_nil, repeats_nil_NoDup.
    split; [now intros [H _] | intros H; split; [exact H | intros x _ []]].
  - intros x Hx. rewrite Hd in Hx.
    destruct (Array_from_Set_acc (repeats [] (map nop records)) []
                (NoDup_nil _)) as [_ Hin].
    apply Hin in Hx as [[]|Hx].
    apply repeats_In in Hx as [Hx _].
    apply in_map_iff in Hx as (r & Hr & Hin'). now exists r.
Qed.

(** ** Further properties of the extraction and of the upload handler *)

Lemma processTaxPDF_world (fileBase64 mimeType : string) (w : World) :
  snd (processTaxPDF fileBase64 mimeType w) =
  snd (withRetry (request fileBase64 mimeType) default_maxRetries w).
Proof using.
  rewrite processTaxPDF_unfold.
  destruct (withRetry _ _ w) as [[resp|e] w1]; [|reflexivity].
  now destruct (JSON_parse (text_or_empty_array resp)).
Qed.

(** X13. One call of [processTaxPDF] sends at least one and at most three
    requests and awaits, between them, the delays 2000 and 4000 and no
    other; when the last request it sent was rejected, it rejects with
    the error of that request. *)
Theorem processTaxPDF_requests_and_delays
    (fileBase64 mimeType : string) (w : World) :
  exists k,
    (k < 3)%nat
    /\ snd (processTaxPDF fileBase64 mimeType w) =
       {| requests := (requests w + S k)%nat;
          sleeps := sleeps w ++ backoff 2000 k |}
    /\ (forall e,
          generateContent (requests w + k)%nat fileBase64 mimeType = Rejected e ->
          fst (processTaxPDF fileBase64 mimeType w) = Rejected e).
Proof using.
  destruct (withRetry_loop_run
              (fun k => generateContent k fileBase64 mimeType) 3 3 0 2000 w)
    as (k & Hk & Hrun); [reflexivity | lia |].
  exists k. split; [exact Hk|].
  assert (withRetry (request fileBase64 mimeType) default_maxRetries w =
          (generateContent (requests w + k)%nat fileBase64 mimeType,
           {| requests := (requests w + S k)%nat;
              sleeps := sleeps w ++ backoff 2000 k |})) as Hw
    by exact Hrun.
  split.
  - now rewrite processTaxPDF_world, Hw.
  - intros e He. rewrite processTaxPDF_unfold, Hw, He. reflexivity.
Qed.

Lemma processTaxPDF_requests_bound (fileBase64 mimeType : string) (w : World) :
  (requests (snd (processTaxPDF fileBase64 mimeType w)) <= requests w + 3)%nat.
Proof using.
  rewrite processTaxPDF_world. unfold withRetry, default_maxRetries, request.
  pose proof (withRetry_loop_calls
                (fun k => generateContent k fileBase64 mimeType) 3
                (for_range 0 3) 2000 w) as H.
  exact H.
Qed.

Lemma extractions_requests_bound (fileList : list File) :
  forall (i : Z) (w : World),
  (requests (snd (extractions fileList i w))
   <= requests w + 3 * List.length fileList)%nat.
Proof using.
  induction fileList as [|file rest IH]; intros i w; cbn [extractions].
  - cbn. lia.
  - set (w1 := if i >? 0 then snd (sleep 1500 w) else w).
    assert (requests w1 = requests w) as Hw1
      by (subst w1; now destruct (i >? 0)).
    pose proof (processTaxPDF_requests_bound
                  (file_base64 file) (file_type file) w1) as Hb.
    destruct (processTaxPDF _ _ w1) as [[result|e] w2]; cbn [snd] in Hb.
    + specialize (IH (i + 1) w2).
      destruct (extractions rest (i + 1) w2) as [outs w3].
      cbn [snd List.length] in *. lia.
    + cbn [snd List.length]. lia.
Qed.

Lemma handleFileUpload_world (file : File) (rest : list File)
    (st : AppState) (w : World) :
  snd (handleFileUpload (Some (file :: rest)) st w) =
  snd (extractions (file :: rest) 0 w).
Proof using.
  unfold handleFileUpload.
  pose proof (upload_loop_extractions (file :: rest) 0 [] w) as H.
  destruct (extractions (file :: rest) 0 w) as [outs w']. cbn [snd].
  rewrite H. now destruct (last outs (Resolved [])).
Qed.

Lemma extractions_app_failed (l1 l2 : list File) :
  forall (i : Z) (w : World) (e : Error),
  In (Rejected e) (fst (extractions l1 i w)) ->
  extractions (l1 ++ l2) i w = extractions l1 i w.
Proof using.
  induction l1 as [|file rest IH]; intros i w e; cbn [extractions app].
  - intros [].
  - destruct (processTaxPDF _ _ _) as [[result|e'] w2]; [|reflexivity].
    specialize (IH (i + 1) w2 e).
    destruct (extractions rest (i + 1) w2) as [outs w3]. cbn [fst] in *.
    intros [H|H]; [discriminate|]. now rewrite IH.
Qed.

(** X14. A failure ends the batch: once a file of the batch has been
    rejected, the files selected after it are neither read nor sent.  The
    handler leaves the same state and the same world as for the batch cut
    after the failing file. *)
Theorem handleFileUpload_stops_at_failure
    (l1 l2 : list File) (st : AppState) (w : World) (e : Error) :
  In (Rejected e) (fst (extractions l1 0 w)) ->
  handleFileUpload (Some (l1 ++ l2)) st w = handleFileUpload (Some l1) st w.
Proof using.
  intros He.
  destruct l1 as [|file rest]; [destruct He|].
  cbn [app]. unfold handleFileUpload.
  pose proof (upload_loop_extractions (file :: rest ++ l2) 0 [] w) as H12.
  pose proof (upload_loop_extractions (file :: rest) 0 [] w) as H1.
  change (file :: rest ++ l2) with ((file :: rest) ++ l2) in H12.
  rewrite (extractions_app_failed _ l2 _ _ _ He) in H12.
  destruct (extractions (file :: rest) 0 w) as [outs w'].
  change ((file :: rest) ++ l2) with (file :: rest ++ l2) in H12.
  now rewrite H12, H1.
Qed.

(** X15. A batch of [n] files sends at most [3 * n] requests to the model
    endpoint, whatever the endpoint answers. *)
Theorem handleFileUpload_requests_bound
    (fileList : list File) (st : AppState) (w : World) :
  (requests (snd (handleFileUpload (Some fileList) st w))
   <= requests w + 3 * List.length fileList)%nat.
Proof using.
  destruct fileList as [|file rest]; [cbn; lia|].
  rewrite handleFileUpload_world. apply extractions_requests_bound.
Qed.

Lemma extractions_nonempty (file : File) (rest : list File) (i : Z) (w : World) :
  fst (extractions (file :: rest) i w) <> [].
Proof using.
  cbn [extractions]. destruct (processTaxPDF _ _ _) as [[result|e] w2].
  - destruct (extractions rest (i + 1) w2). discriminate.
  - discriminate.
Qed.

Lemma last_In {A} (l : list A) (d : A) : l <> [] -> In (last l d) l.
Proof using.
  induction l as [|x l IH]; [congruence|]. intros _.
  destruct l as [|y l]; [now left|]. right. apply IH. discriminate.
Qed.

(** X16. After a batch with at least one file the loading flag is off,
    and the error message is absent exactly when every extraction of the
    batch resolved: a success clears the message of an earlier failure, a
    failure always sets one. *)
Theorem handleFileUpload_error_iff_failure
    (file : File) (rest : list File) (st : AppState) (w : World) :
  let outs := fst (extractions (file :: rest) 0 w) in
  let st' := fst (handleFileUpload (Some (file :: rest)) st w) in
  isLoading st' = false
  /\ (error st' = None <->
      forall o, In o outs -> exists result, o = Resolved result).
Proof using.
  intros outs st'. subst st'. rewrite handleFileUpload_state. fold outs.
  destruct (last outs (Resolved [])) as [r|e] eqn:Hlast; cbn [isLoading error].
  - split; [reflexivity|]. split; [|reflexivity]. intros _ o Ho.
    destruct o as [result|e]; [now exists result|].
    destruct (extractions_rejected_last _ _ _ _ Ho) as [oks Hoks].
    fold outs in Hoks. rewrite Hoks, last_last in Hlast. discriminate.
  - split; [reflexivity|]. split; [discriminate|]. intros Hall. exfalso.
    assert (In (Rejected e) outs) as Hin.
    { rewrite <- Hlast. apply last_In. apply extractions_nonempty. }
    destruct (Hall _ Hin) as [result Hr]. discriminate.
Qed.

(** X17. The remediation block with the link to set a personal key is
    rendered after a failed batch exactly when the quota message was set,
    that is when the error of the rejected extraction contains 429 or is
    the marker QUOTA_EXCEEDED; the generic failure message never shows
    it. *)
Theorem key_hint_after_failure
    (fileList : list File) (st : AppState) (w : World) (e : Error) :
  In (Rejected e) (fst (extractions fileList 0 w)) ->
  key_hint_shown (fst (handleFileUpload (Some fileList) st w)) =
  mentions_429 e || is_quota_marker e.
Proof using.
  intros He. destruct fileList as [|file rest]; [destruct He|].
  rewrite handleFileUpload_state.
  destruct (extractions_rejected_last _ _ _ _ He) as [oks ->].
  rewrite last_last.
  now destruct (mentions_429 e || is_quota_marker e).
Qed.

Section CleanBatch.

(** An endpoint that answers every request, with a body that parses. *)
Hypothesis always_answers :
  forall k fileBase64 mimeType,
  exists response items,
    generateContent k fileBase64 mimeType = Resolved response
    /\ JSON_parse (text_or_empty_array response) = ParsedArray items.

Lemma processTaxPDF_answered (fileBase64 mimeType : string) (w : World) :
  exists items,
    processTaxPDF fileBase64 mimeType w =
    (Resolved (map normalize items),
     {| requests := S (requests w); sleeps := sleeps w |}).
Proof using always_answers.
  destruct (always_answers (requests w) fileBase64 mimeType)
    as (response & items & Hresp & Hparse).
  exists items.
  now rewrite processTaxPDF_unfold, (request_resolved _ _ _ _ Hresp), Hparse.
Qed.

Lemma extractions_answered (fileList : list File) : forall (i : Z) (w : World),
  0 < i ->
  snd (extractions fileList i w) =
    {| requests := (requests w + List.length fileList)%nat;
       sleeps := sleeps w ++ repeat 1500 (List.length fileList) |}
  /\ forall o, In o (fst (extractions fileList i w)) ->
               exists result, o = Resolved result.
Proof using always_answers.
  induction fileList as [|file rest IH]; intros i w Hi; cbn [extractions].
  - cbn. rewrite app_nil_r, Nat.add_0_r. split; [now destruct w | intros o []].
  - replace (i >? 0) with true by (symmetry; apply Z.gtb_lt; lia).
    destruct (processTaxPDF_answered (file_base64 file) (file_type file)
                (snd (sleep 1500 w))) as [items ->].
    destruct (IH (i + 1)
                {| requests := S (requests (snd (sleep 1500 w)));
                   sleeps := sleeps (snd (sleep 1500 w)) |} ltac:(lia))
      as [Hw Hall].
    destruct (extractions rest (i + 1) _) as [outs w3].
    cbn [fst snd] in *. split.
    + rewrite Hw. cbn [sleep snd requests sleeps List.length repeat].
      rewrite <- app_assoc. cbn [app]. f_equal. lia.
    + intros o [<-|Ho]; [now eexists | now apply Hall].
Qed.

(** X18. When the endpoint answers every request with a body that parses,
    a batch of [n] files sends exactly [n] requests and waits 1500 ms
    before every file but the first, [n - 1] times in all and nothing
    else; no error message is left. *)
Theorem handleFileUpload_clean_batch
    (file : File) (rest : list File) (st : AppState) (w : World) :
  snd (handleFileUpload (Some (file :: rest)) st w) =
    {| requests := (requests w + S (List.length rest))%nat;
       sleeps := sleeps w ++ repeat 1500 (List.length rest) |}
  /\ error (fst (handleFileUpload (Some (file :: rest)) st w)) = None
  /\ List.length (fst (extractions (file :: rest) 0 w))
     = S (List.length rest).
Proof using always_answers.
  assert (snd (extractions (file :: rest) 0 w) =
            {| requests := (requests w + S (List.length rest))%nat;
               sleeps := sleeps w ++ repeat 1500 (List.length rest) |}
          /\ forall o, In o (fst (extractions (file :: rest) 0 w)) ->
                       exists result, o = Resolved result) as [Hw Hall].
  { cbn [extractions]. change (0 >? 0) with false. cbv iota.
    destruct (processTaxPDF_answered (file_base64 file) (file_type file) w)
      as [items ->].
    destruct (extractions_answered rest (0 + 1)
                {| requests := S (requests w); sleeps := sleeps w |}
                ltac:(lia)) as [Hw Hall].
    destruct (extractions rest (0 + 1) _) as [outs w3].
    cbn [fst snd] in *. split.
    - rewrite Hw. cbn [requests sleeps]. f_equal. lia.
    - intros o [<-|Ho]; [now eexists | now apply Hall]. }
  split; [now rewrite handleFileUpload_world|].
  split.
  - rewrite handleFileUpload_state.
    now destruct (last_all_resolved _ [] Hall) as [result ->].
  - now apply (extractions_all_resolved (file :: rest)).
Qed.

End CleanBatch.

Lemma normalize_normalised (item : RawItem) : normalised (normalize item).
Proof using.
  split; [|split; reflexivity].
  now rewrite normalize_arrears, keys_tabulate.
Qed.

Lemma extractions_normalised (fileList : list File) :
  forall (i : Z) (w : World),
  Forall normalised (extracted_records (fst (extractions fileList i w))).
Proof using.
  induction fileList as [|file rest IH]; intros i w; cbn [extractions].
  - constructor.
  - destruct (processTaxPDF _ _ _) as [[result|e] w2] eqn:Hp.
    + specialize (IH (i + 1) w2).
      destruct (extractions rest (i + 1) w2) as [outs w3].
      cbn [fst extracted_records flat_map] in *.
      apply Forall_app. split; [|exact IH].
      apply processTaxPDF_resolved in Hp as (resp & raw & _ & _ & ->).
      apply Forall_forall. intros r Hr.
      apply in_map_iff in Hr as (item & <- & _). apply normalize_normalised.
    + cbn. constructor.
Qed.

(** X19. The record list only ever holds normalised records: if every
    record of the state has one entry per configured year, in order, a
    total recomputed from its entries and no notes, the same is true
    after [handleFileUpload], whatever the batch and its outcome.  For
    such a list [generateSummary] reports no total-mismatch anomaly. *)
Theorem handleFileUpload_keeps_records_normalised
    (files : option (list File)) (st : AppState) (w : World) :
  Forall normalised (records st) ->
  Forall normalised (records (fst (handleFileUpload files st w)))
  /\ anomalies (generateSummary (records st)) = [].
Proof using.
  intros Hst. split.
  - destruct files as [[|file rest]|]; try exact Hst.
    rewrite handleFileUpload_state.
    destruct (last _ (Resolved [])); cbn [records]; [|exact Hst].
    apply Forall_app. split; [exact Hst | apply extractions_normalised].
  - cbn [generateSummary anomalies]. rewrite anomalies_loop. cbn [app].
    induction Hst as [|r rs Hr _ IH]; [reflexivity|].
    cbn [filter].
    replace (total_mismatch r) with false; [exact IH|].
    symmetry. unfold total_mismatch. destruct Hr as (_ & -> & _).
    apply difference_with_itself.
Qed.

(** X20. [handleFileUpload] never removes or reorders the records already
    in the list: whatever the files and whatever the outcome of their
    extraction, the list before is a prefix of the list after. *)
Theorem handleFileUpload_only_appends
    (files : option (list File)) (st : AppState) (w : World) :
  exists added,
    records (fst (handleFileUpload files st w)) = records st ++ added
    /\ Forall normalised added.
Proof using.
  destruct files as [[|file rest]|];
    try (exists []; split; [now rewrite app_nil_r | constructor]).
  rewrite handleFileUpload_state.
  destruct (last _ (Resolved [])); cbn [records].
  - eexists. split; [reflexivity | apply extractions_normalised].
  - exists []. split; [now rewrite app_nil_r | constructor].
Qed.

(* XTRA *)

End Program.

(* ================================================================== *)
(** * Part III: the statements on the sample environments *)
(* ================================================================== *)

Import Sample.

(** C3 on a function that is rate limited twice. *)
Lemma withRetry_succeeds_on_third_call_witness :
  withRetry (invoke flaky) default_maxRetries world0 =
  (Resolved "done", {| requests := 3; sleeps := [2000; 4000] |}).
Proof.
  exact (withRetry_succeeds_on_third_call string flaky world0
           rate_limited rate_limited _ _ "done"
           eq_refl eq_refl eq_refl eq_refl eq_refl eq_refl eq_refl).
Defined.

(** C4 on a function that is always unavailable and on one that always
    refuses the request. *)
Lemma withRetry_retry_policy_witness :
  withRetry (invoke (always unavailable)) 3 world0 =
    (Rejected unavailable, {| requests := 3; sleeps := [2000; 4000] |})
  /\ withRetry (invoke (always bad_request)) 3 world0 =
    (Rejected bad_request, {| requests := 1; sleeps := [] |})
  /\ isRetryable unavailable = true
  /\ isRetryable bad_request = false.
Proof.
  assert (1 <= 3) as H13 by (intros H; discriminate H).
  split; [|split; [|split; reflexivity]].
  - destruct (withRetry_retry_policy string (always unavailable) 3 world0 H13)
      as (_ & _ & _ & Hpersist & _).
    destruct Hpersist as (e & He & Hrun & _).
    + intros k _. exists unavailable. split; reflexivity.
    + injection He as <-. exact Hrun.
  - destruct (withRetry_retry_policy string (always bad_request) 3 world0 H13)
      as (_ & Hfirst & _).
    exact (Hfirst bad_request eq_refl eq_refl).
Defined.

(** C1 on the years 2020 to 2023 and an answer with an explicit zero, a
    year out of range and a year given twice. *)
Lemma normalize_covers_year_range_witness :
  arrears (normalize 2020 2023 budi_item) =
    [(2020, None); (2021, Some 0%float); (2022, Some 200%float);
     (2023, Some (-20)%float)]
  /\ map fst (arrears (normalize 2020 2023 budi_item)) = [2020; 2021; 2022; 2023]
  /\ obj_get (arrears (normalize 2020 2023 budi_item)) 2020 = Some None
  /\ obj_get (arrears (normalize 2020 2023 budi_item)) 2021 = Some (Some 0%float)
  /\ obj_get (arrears (normalize 2020 2023 budi_item)) 2019 = None.
Proof.
  destruct (normalize_covers_year_range 2020 2023 budi_item)
    as (Hkeys & _ & _ & Hget & _).
  split; [reflexivity|]. split; [exact Hkeys|].
  split; [exact (Hget 2020)|]. split; [exact (Hget 2021) | exact (Hget 2019)].
Defined.

(** C2 on the same answer: only the 200 of 2022 is positive. *)
Lemma processTaxPDF_total_is_positive_sum_witness :
  processTaxPDF 2020 2023 parse answers_budi "JVBERi0=" "application/pdf" world0
    = (Resolved [normalize 2020 2023 budi_item],
       {| requests := 1; sleeps := [] |})
  /\ total (normalize 2020 2023 budi_item) = 200%float
  /\ Forall (fun r =>
               total r = fold_left PrimFloat.add
                           (map positive_or_zero (Object_values (arrears r)))
                           0%float)
            [normalize 2020 2023 budi_item].
Proof.
  split; [reflexivity|]. split; [reflexivity|].
  destruct (processTaxPDF_total_is_positive_sum 2020 2023 parse answers_budi
              "JVBERi0=" "application/pdf" world0
              {| requests := 1; sleeps := [] |}
              [normalize 2020 2023 budi_item] eq_refl) as (Hall & _).
  eapply Forall_impl; [|exact Hall]. intros r [Hr _]. exact Hr.
Defined.

(** C10 on a response without text, on a body that is not JSON and on a
    body that is JSON but no array. *)
Lemma processTaxPDF_empty_text_witness :
  parse "[]" = ParsedArray []
  /\ processTaxPDF 2020 2023 parse answers_nothing "JVBERi0=" "application/pdf"
       world0
     = (Resolved [], {| requests := 1; sleeps := [] |})
  /\ (exists syntaxError,
        parse "<html>" = ParseError syntaxError
        /\ processTaxPDF 2020 2023 parse (answers_with "<html>")
             "JVBERi0=" "application/pdf" world0
           = (Rejected syntaxError, {| requests := 1; sleeps := [] |}))
  /\ processTaxPDF 2020 2023 parse (answers_with "{}")
       "JVBERi0=" "application/pdf" world0
     = (Rejected not_an_array, {| requests := 1; sleeps := [] |}).
Proof.
  split; [reflexivity|]. split; [|split].
  - destruct (processTaxPDF_empty_text_and_parse_failure 2020 2023 parse
                answers_nothing "JVBERi0=" "application/pdf" world0 eq_refl)
      as (Hempty & _).
    exact (Hempty {| text := None |} {| requests := 1; sleeps := [] |}
             eq_refl (or_introl eq_refl)).
  - destruct (processTaxPDF_empty_text_and_parse_failure 2020 2023 parse
                (answers_with "<html>") "JVBERi0=" "application/pdf" world0
                eq_refl) as (_ & Hparse & _).
    eexists. split; [reflexivity|].
    exact (proj1 (Hparse {| text := Some "<html>" |}
                    {| requests := 1; sleeps := [] |} _ eq_refl eq_refl)).
  - reflexivity.
Defined.

(** C5 on three files of which the second is refused, and on two files
    that are both extracted. *)
Lemma handleFileUpload_all_or_nothing_witness :
  fst (extractions 2020 2023 parse answers_once [pdf; pdf; pdf] 0 world0)
    = [Resolved [normalize 2020 2023 budi_item]; Rejected bad_request]
  /\ records (fst (handleFileUpload 2020 2023 parse answers_once
                     (Some [pdf; pdf; pdf]) committed world0))
     = [budi_record]
  /\ records (fst (handleFileUpload 2020 2023 parse answers_budi
                     (Some [pdf; pdf]) committed world0))
     = [budi_record; normalize 2020 2023 budi_item;
        normalize 2020 2023 budi_item].
Proof.
  split; [reflexivity|]. split.
  - destruct (handleFileUpload_all_or_nothing 2020 2023 parse answers_once
                [pdf; pdf; pdf] committed world0) as (Hfail & _).
    apply Hfail. exists bad_request. right. left. reflexivity.
  - destruct (handleFileUpload_all_or_nothing 2020 2023 parse answers_budi
                [pdf; pdf] committed world0) as (_ & Hsuccess & _).
    destruct Hsuccess as [_ Hrecords]; [|exact Hrecords].
    intros o [<-|[<-|[]]]; eexists; reflexivity.
Defined.

(** C9, as amended, on a rate-limited batch and on a refused one. *)
Lemma handleFileUpload_error_message_witness :
  error (fst (handleFileUpload 2020 2023 parse (rejects rate_limited)
                (Some [pdf]) committed world0)) = Some QUOTA_MESSAGE
  /\ error (fst (handleFileUpload 2020 2023 parse answers_once
                   (Some [pdf; pdf; pdf]) committed world0))
     = Some FAILURE_MESSAGE.
Proof.
  split.
  - destruct (handleFileUpload_error_message 2020 2023 parse
                (rejects rate_limited) [pdf] committed world0 rate_limited)
      as (Herror & _); [left; reflexivity | exact Herror].
  - destruct (handleFileUpload_error_message 2020 2023 parse
                answers_once [pdf; pdf; pdf] committed world0 bad_request)
      as (Herror & _); [right; left; reflexivity | exact Herror].
Defined.

(** C9, as the specification states it, fails.  An extraction rejected
    with an error whose message is QUOTA_EXCEEDED, which does not contain
    429, is answered with the quota message, not with the generic one. *)
Lemma handleFileUpload_quota_marker_counterexample :
  fst (extractions 2020 2023 parse (rejects marker_like) [pdf] 0 world0)
    = [Rejected marker_like]
  /\ message marker_like = Some "QUOTA_EXCEEDED"
  /\ includes "QUOTA_EXCEEDED" "429" = false
  /\ error (fst (handleFileUpload 2020 2023 parse (rejects marker_like)
                   (Some [pdf]) committed world0)) = Some QUOTA_MESSAGE
  /\ String.eqb QUOTA_MESSAGE FAILURE_MESSAGE = false.
Proof. repeat split. Qed.

(** C6 on records with the identifiers A, B, A, C, A. *)
Lemma generateSummary_duplicates_witness :
  map nop sample_records = ["A"; "B"; "A"; "C"; "A"]
  /\ duplicates (generateSummary sample_records) = ["A"].
Proof.
  split; [reflexivity|].
  destruct (generateSummary_duplicates sample_records) as (_ & _ & _ & Hex).
  exact (Hex eq_refl).
Defined.


(** C8 on the record of Budi. *)
Lemma exportToCSV_format_witness :
  Number_toString_integers 500%float = "500"
  /\ join_cells Number_toString_integers "," (rowData [2020; 2021] budi_record)
     = (dquote ++ "Budi" ++ dquote ++ ",'123,,500,500")%string
  /\ exportToCSV [2020; 2021] Number_toString_integers [budi_record]
     = Some (BOM ++ "Nama,NOP,2020,2021,Total" ++ newline
             ++ dquote ++ "Budi" ++ dquote ++ ",'123,,500,500")%string.
Proof.
  destruct (exportToCSV_format [2020; 2021] Number_toString_integers
              budi_record []) as (Hfile & _ & _ & _ & Hrow).
  split; [reflexivity|].
  split; [exact (Hrow eq_refl eq_refl eq_refl eq_refl eq_refl eq_refl eq_refl)|].
  exact Hfile.
Defined.

(** X1 on a budget of zero attempts. *)
Lemma withRetry_without_attempts_witness :
  withRetry (invoke flaky) 0 world0 =
  (Rejected (new_Error "Max retries exceeded"), world0).
Proof.
  exact (withRetry_without_attempts string (invoke flaky) 0 world0
           (Z.le_refl 0)).
Defined.

(** X2 on a service that recovers at the fourth of five attempts. *)
Lemma withRetry_success_after_retries_witness :
  withRetry (invoke recovers) 5 world0 =
  (Resolved "done", {| requests := 4; sleeps := [2000; 4000; 8000] |}).
Proof.
  apply (withRetry_success_after_retries string recovers 5 world0 3 "done").
  - reflexivity.
  - intros j Hj. exists unavailable.
    destruct j as [|[|[|j]]]; [split; reflexivity ..|].
    exfalso. apply (Nat.lt_irrefl 3).
    apply (Nat.le_lt_trans _ (S (S (S j)))); [|exact Hj].
    apply le_n_S, le_n_S, le_n_S, Nat.le_0_l.
  - reflexivity.
Defined.

(** X3 on a rate-limited call followed by a refusal. *)
Lemma withRetry_stops_at_non_retryable_witness :
  withRetry (invoke refused_after_retry) 3 world0 =
  (Rejected bad_request, {| requests := 2; sleeps := [2000] |}).
Proof.
  apply (withRetry_stops_at_non_retryable string refused_after_retry 3 world0
           1 bad_request).
  - reflexivity.
  - intros j Hj. exists rate_limited.
    destruct j as [|j]; [split; reflexivity|].
    exfalso. apply (Nat.lt_irrefl 1).
    apply (Nat.le_lt_trans _ (S j)); [|exact Hj].
    apply le_n_S, Nat.le_0_l.
  - reflexivity.
  - reflexivity.
Defined.

(** X4 on the function that is rate limited twice. *)
Lemma withRetry_outcome_is_last_call_witness :
  exists k,
    Z.of_nat k < 3 /\
    withRetry (invoke flaky) 3 world0 =
    (flaky (requests world0 + k)%nat,
     {| requests := (requests world0 + S k)%nat;
        sleeps := sleeps world0 ++ backoff 2000 k |}).
Proof.
  apply (withRetry_outcome_is_last_call string flaky 3 world0).
  intros H. discriminate H.
Defined.

(** X5 on a service that stays unavailable. *)
Lemma withRetry_total_wait_bound_witness :
  exists waited,
    sleeps (snd (withRetry (invoke (always unavailable)) 3 world0))
      = sleeps world0 ++ waited
    /\ 0 <= total_wait waited <= 2000 * (2 ^ (3 - 1) - 1)
    /\ (3 = default_maxRetries -> total_wait waited <= 6000).
Proof.
  apply (withRetry_total_wait_bound string (always unavailable) 3 world0).
  intros H. discriminate H.
Defined.

(** X8 on the answer of Budi. *)
Lemma processTaxPDF_records_are_consistent_witness :
  Forall (fun r => total_mismatch r = false) [normalize 2020 2023 budi_item]
  /\ anomalies (generateSummary [normalize 2020 2023 budi_item]) = [].
Proof.
  exact (processTaxPDF_records_are_consistent 2020 2023 parse answers_budi
           "JVBERi0=" "application/pdf" world0
           {| requests := 1; sleeps := [] |}
           [normalize 2020 2023 budi_item] eq_refl).
Defined.

(** X9 on bounds in the wrong order. *)
Lemma normalize_empty_range_witness :
  arrears (normalize 2023 2020 budi_item) = []
  /\ total (normalize 2023 2020 budi_item) = 0%float.
Proof.
  exact (normalize_empty_range 2023 2020 budi_item eq_refl).
Defined.

(** X10 on an answer and its reversal. *)
Lemma normalize_order_independent_witness :
  normalize 2020 2023 distinct_item = normalize 2020 2023 distinct_item_reversed.
Proof.
  apply normalize_order_independent.
  - reflexivity.
  - reflexivity.
  - repeat constructor; cbn; intros H;
      repeat (destruct H as [H|H]; [discriminate H|]); exact H.
  - apply Permutation_rev.
Defined.

(** X11 on the years 2020 to 2023 and the answer of Budi. *)
Lemma rowData_of_normalize_witness :
  rowData [2020; 2021; 2022; 2023] (normalize 2020 2023 budi_item) =
    [CString (dquote ++ "Budi" ++ dquote)%string; CString "'123";
     CString EmptyString; CNumber 0; CNumber 200; CNumber (-20);
     CNumber 200].
Proof.
  destruct (rowData_of_normalize 2020 2023 [2020; 2021; 2022; 2023] budi_item)
    as [Hrow _]; [|exact Hrow].
  intros y [<-|[<-|[<-|[<-|[]]]]]; split; intros H; discriminate H.
Defined.

(** X14 on four files of which the second is refused. *)
Lemma handleFileUpload_stops_at_failure_witness :
  handleFileUpload 2020 2023 parse answers_once
    (Some ([pdf; pdf] ++ [pdf; pdf])) committed world0
  = handleFileUpload 2020 2023 parse answers_once
      (Some [pdf; pdf]) committed world0.
Proof.
  apply (handleFileUpload_stops_at_failure 2020 2023 parse answers_once
           [pdf; pdf] [pdf; pdf] committed world0 bad_request).
  right. left. reflexivity.
Defined.

(** X17 on a rate-limited batch and on a refused one. *)
Lemma key_hint_after_failure_witness :
  key_hint_shown (fst (handleFileUpload 2020 2023 parse (rejects rate_limited)
                         (Some [pdf]) committed world0)) = true
  /\ key_hint_shown (fst (handleFileUpload 2020 2023 parse answers_once
                            (Some [pdf; pdf]) committed world0)) = false.
Proof.
  split.
  - apply (key_hint_after_failure 2020 2023 parse (rejects rate_limited)
             [pdf] committed world0 rate_limited).
    left. reflexivity.
  - apply (key_hint_after_failure 2020 2023 parse answers_once
             [pdf; pdf] committed world0 bad_request).
    right. left. reflexivity.
Defined.

(** X18 on three files and an endpoint that answers every request. *)
Lemma handleFileUpload_clean_batch_witness :
  snd (handleFileUpload 2020 2023 parse answers_budi
         (Some [pdf; pdf; pdf]) committed world0)
  = {| requests := 3; sleeps := [1500; 1500] |}.
Proof.
  destruct (handleFileUpload_clean_batch 2020 2023 parse answers_budi)
    with (file := pdf) (rest := [pdf; pdf]) (st := committed) (w := world0)
    as [Hworld _]; [|exact Hworld].
  intros k fileBase64 mimeType.
  exists {| text := Some budi_body |}, [budi_item]. split; reflexivity.
Defined.

(** X19 on the years 2020 and 2021 and a state that holds the record of
    the CSV example. *)
Lemma handleFileUpload_keeps_records_normalised_witness :
  Forall (normalised 2020 2021) [budi_record]
  /\ Forall (normalised 2020 2021)
       (records (fst (handleFileUpload 2020 2021 parse answers_budi
                        (Some [pdf]) committed world0)))
  /\ anomalies (generateSummary [budi_record]) = [].
Proof.
  assert (Forall (normalised 2020 2021) (records committed)) as H
    by (repeat constructor).
  split; [exact H|].
  exact (handleFileUpload_keeps_records_normalised 2020 2021 parse
           answers_budi (Some [pdf]) committed world0 H).
Defined.
